(** * repoze.catalog: field index, keyword index and catalog query planner

    A shallow embedding of [repoze/catalog/catalog.py] (Python 2).

    - BTrees sets of document ids ([IFSet], [IFTreeSet]) are [gset Z]; they
      iterate in ascending order ([iter_set]).
    - BTrees maps ([OOBTree], [IOBTree]) are [gmap]; [values()] walks the
      keys in ascending order ([btree_values]).
    - Mutating methods are functions in a state-and-exception monad [M]:
      a raised exception carries the state reached when it was raised.
    - A generator is the list of objects it yields together with the way it
      ends ([generated]).
    - The keys of a query hold references to their sub-query objects, which
      live in a heap ([gmap nat Q]): two keys can hold the same object, and
      [apply] changes the object it is given in place. *)

From Stdlib Require Import ZArith Lia Sorted Permutation.
From stdpp Require Import gmap strings list fin_maps sorting.

Local Open Scope Z_scope.

(** ** Exceptions *)

(** The module raises [ValueError] at five places; the tag records which. *)
Inductive value_error :=
  | BadDiscriminator      (* 'discriminator value must be callable or a string' *)
  | LimitTooSmall         (* 'limit must be 1 or greater' *)
  | PersistentValue       (* 'Catalog cannot index persistent object %s' *)
  | NoSuchIndex (name : string)   (* 'No such index %s' *)
  | NotICatalogIndex      (* '%s does not provide ICatalogIndex' *)
  | NotAnInteger.         (* '%r is not an integer value; ...' *)

Inductive error :=
  | ValueError (why : value_error)
  | KeyError
  | TypeError
  | IndexError
  | AttributeError.

(** ** State and exception monad *)

Inductive outcome (A : Type) :=
  | Ok (a : A)
  | Raise (e : error).
Arguments Ok {A} a.
Arguments Raise {A} e.

Definition M (S A : Type) : Type := S → outcome A * S.

Global Instance M_ret {S} : MRet (M S) := λ A a s, (Ok a, s).
Global Instance M_bind {S} : MBind (M S) := λ A B k m s,
  match m s with
  | (Ok a, s') => k a s'
  | (Raise e, s') => (Raise e, s')
  end.
Definition raise {S A} (e : error) : M S A := λ s, (Raise e, s).
Definition modify {S} (f : S → S) : M S unit := λ s, (Ok tt, f s).

(** [for x in xs: body x] *)
Fixpoint for_each {S A} (xs : list A) (body : A → M S unit) : M S unit :=
  match xs with
  | [] => mret tt
  | x :: xs' => body x;; for_each xs' body
  end.

(** ** Ordered containers (BTrees) *)

(** Iteration over an [IFSet]: ascending document ids. *)
Definition iter_set (s : gset Z) : list Z := merge_sort Z.le (elements s).

(** [btree.items()] and [btree.values()] of a map keyed by [Z]: ascending keys. *)
Definition key_le {B} (p q : Z * B) : Prop := p.1 ≤ q.1.
Global Instance key_le_dec {B} (p q : Z * B) : Decision (key_le p q).
Proof. unfold key_le. apply _. Defined.

Definition btree_items {B} (m : gmap Z B) : list (Z * B) :=
  merge_sort key_le (map_to_list m).
Definition btree_values {B} (m : gmap Z B) : list B := (btree_items m).*2.

(** [family.IF.intersection] and [family.IF.union]: when one argument is
    [None] the other one is returned. *)
Definition IF_intersection (c1 c2 : option (gset Z)) : option (gset Z) :=
  match c1, c2 with
  | None, _ => c2
  | _, None => c1
  | Some a, Some b => Some (a ∩ b)
  end.
Definition IF_union (c1 c2 : option (gset Z)) : option (gset Z) :=
  match c1, c2 with
  | None, _ => c2
  | _, None => c1
  | Some a, Some b => Some (a ∪ b)
  end.

(** ** Documents and discriminators *)

(** What a discriminator can hand back for a document: a plain value or an
    instance of [Persistent]. *)
Inductive pyvalue (V : Type) :=
  | Plain (v : V)
  | PersistentObject (oid : Z).
Arguments Plain {V} v.
Arguments PersistentObject {V} oid.

(** The result of discrimination: the sentinel [_marker] or a value. *)
Inductive discriminated (V : Type) :=
  | Marker
  | Value (v : pyvalue V).
Arguments Marker {V}.
Arguments Value {V} v.

(** A document is seen through its attributes. *)
Definition document (V : Type) : Type := gmap string (pyvalue V).

Inductive discriminator_of (V : Type) :=
  | Callable (f : document V → discriminated V)
  | AttrName (name : string).
Arguments Callable {V} f.
Arguments AttrName {V} name.

(** [getattr(object, name, _marker)] *)
Definition getattr {V} (object : document V) (name : string) : discriminated V :=
  match object !! name with
  | Some v => Value v
  | None => Marker
  end.

(** The first statement of [CatalogIndex.index_doc]: call the discriminator,
    or read the attribute it names. *)
Definition discriminate {V} (d : discriminator_of V) (object : document V)
  : discriminated V :=
  match d with
  | Callable f => f object
  | AttrName name => getattr object name
  end.

(** ** CatalogIndex.index_doc *)

Section CatalogIndex.
Context {Self V : Type}.
(** [self.discriminator] and the two methods reached through [super]. *)
Variable discriminator : Self → discriminator_of V.
Variable super_unindex_doc : Z → M Self unit.
Variable super_index_doc : Z → V → M Self unit.

Definition CatalogIndex_index_doc (docid : Z) (object : document V)
  : M Self unit :=
  λ self,
    match discriminate (discriminator self) object with
    | Marker =>
        (* unindex the previous value *)
        (super_unindex_doc docid;; mret tt) self
    | Value (PersistentObject _) =>
        raise (ValueError PersistentValue) self
    | Value (Plain v) =>
        super_index_doc docid v self
    end.
End CatalogIndex.

(** ** Sorting primitives of the Python library *)

(** [bisect.insort(a, x)]: [x] goes in front of the first entry that is
    greater than [x], hence behind the entries equal to it.  On a sorted
    list the binary search of [bisect] finds the same place. *)
Fixpoint insort {A} (lt : A → A → bool) (x : A) (a : list A) : list A :=
  match a with
  | [] => [x]
  | y :: a' => if lt x y then x :: a else y :: insort lt x a'
  end.

(** [sorted(iterable)]: a stable sort. *)
Definition sorted {A} (lt : A → A → bool) (l : list A) : list A :=
  foldl (λ acc x, insort lt x acc) [] l.

(** [sorted(iterable, key=key, reverse=reverse)]: with [reverse] the
    comparison is flipped and equal keys keep their original order. *)
Definition sorted_by {A K} (lt : K → K → bool) (key : A → K) (reverse : bool)
    (l : list A) : list A :=
  sorted (λ x y, if reverse then lt (key y) (key x) else lt (key x) (key y)) l.

(** Python 2 comparison of the keys [rev_index.get(docid)]: [None] is
    smaller than every number. *)
Definition key_lt (a b : option Z) : bool :=
  match a, b with
  | None, Some _ => true
  | Some x, Some y => x <? y
  | _, None => false
  end.

(** Comparison of the tuples [(val, docid)]. *)
Definition pair_lt (a b : Z * Z) : bool :=
  (a.1 <? b.1) || ((a.1 =? b.1) && (a.2 <? b.2)).
Definition pair_le (a b : Z * Z) : bool := negb (pair_lt b a).

(** [heapq.nlargest(n, iterable)], by its documented meaning
    [sorted(iterable, reverse=True)[:n]]; [n] has to be an integer. *)
Definition heapq_nlargest (n : option Z) (l : list (Z * Z))
  : outcome (list (Z * Z)) :=
  match n with
  | None => Raise TypeError
  | Some n => Ok (take (Z.to_nat n) (sorted (λ x y, pair_lt y x) l))
  end.

(** [islice(it, 0, limit)]: the items taken and what is left in [it]. *)
Definition islice {A} (it : list A) (limit : option Z) : list A * list A :=
  match limit with
  | None => (it, [])
  | Some n => (take (Z.to_nat n) it, drop (Z.to_nat n) it)
  end.

(** ** CatalogFieldIndex *)

Module Field.

Record CatalogFieldIndex := {
  discriminator : discriminator_of Z;
  _fwd_index : gmap Z (gset Z);   (* value -> set of docids *)
  _rev_index : gmap Z Z;          (* docid -> value *)
  _num_docs : Z;                  (* Length counter *)
  use_lazy : bool;                (* for unit testing *)
  use_nbest : bool                (* for unit testing *)
}.

Definition with_store (self : CatalogFieldIndex)
    (fwd : gmap Z (gset Z)) (rev : gmap Z Z) (n : Z) : CatalogFieldIndex :=
  {| discriminator := discriminator self;
     _fwd_index := fwd; _rev_index := rev; _num_docs := n;
     use_lazy := use_lazy self; use_nbest := use_nbest self |}.

(** [CatalogFieldIndex.unindex_doc].  The [try] block fails with [KeyError]
    when the bucket is missing and when [set.remove] does not find the
    docid; in both cases [set = 1] and no bucket is deleted. *)
Definition unindex_doc_forward (docid value : Z) (fwd : gmap Z (gset Z))
  : gmap Z (gset Z) :=
  match fwd !! value with
  | None => fwd
  | Some set =>
      if decide (docid ∈ set) then
        let set' := set ∖ {[docid]} in
        if decide (set' = ∅) then delete value fwd
        else <[value := set']> fwd
      else fwd
  end.

Definition unindex_doc (docid : Z) (self : CatalogFieldIndex)
  : CatalogFieldIndex :=
  match _rev_index self !! docid with
  | None => self (* not in index *)
  | Some value =>
      with_store self
        (unindex_doc_forward docid value (_fwd_index self))
        (delete docid (_rev_index self))
        (_num_docs self - 1)
  end.

(** Modelled from the spec: [FieldIndex.index_doc] of zope.index, the method
    [CatalogIndex.index_doc] reaches through [super]; zope.index is an
    external package.  Section 4.2: a docid that already has a value is
    first removed from that value's bucket (the bucket is pruned when it
    becomes empty) and the count is left alone; the docid is inserted into
    the bucket of the new value, created if absent, the reverse entry is
    set, and the count grows only for a docid that was not present. *)
Definition FieldIndex_index_doc (docid value : Z) (self : CatalogFieldIndex)
  : CatalogFieldIndex :=
  let fwd :=
    match _rev_index self !! docid with
    | Some old => unindex_doc_forward docid old (_fwd_index self)
    | None => _fwd_index self
    end in
  let n :=
    match _rev_index self !! docid with
    | Some _ => _num_docs self
    | None => _num_docs self + 1
    end in
  with_store self
    (<[value := default ∅ (fwd !! value) ∪ {[docid]}]> fwd)
    (<[docid := value]> (_rev_index self))
    n.

(** Modelled from the spec: [FieldIndex.unindex_doc] of zope.index reached
    through [super] when the discriminator yields no value.  Section 4.1:
    remove any existing entry for the id, equivalent to [unindex_doc]. *)
Definition FieldIndex_unindex_doc (docid : Z) (self : CatalogFieldIndex)
  : CatalogFieldIndex :=
  unindex_doc docid self.

(** [CatalogFieldIndex.index_doc], inherited from [CatalogIndex]. *)
Definition index_doc (docid : Z) (object : document Z)
  : M CatalogFieldIndex unit :=
  CatalogIndex_index_doc discriminator
    (λ d, modify (FieldIndex_unindex_doc d))
    (λ d v, modify (FieldIndex_index_doc d v))
    docid object.

(** [FieldIndex.clear]: a freshly constructed index. *)
Definition new_field_index (d : discriminator_of Z) : CatalogFieldIndex :=
  {| discriminator := d; _fwd_index := ∅; _rev_index := ∅; _num_docs := 0;
     use_lazy := false; use_nbest := false |}.

(** ** CatalogFieldIndex.sort *)

(** What a generator hands out: here document ids and, at one place, the
    class [StopIteration] itself. *)
Inductive yielded :=
  | Docid (docid : Z)
  | StopIterationClass.

(** How a generator ends: exhausted, or with an exception. *)
Inductive gen_end :=
  | Exhausted
  | Raised (e : error).

Record generated := { yields : list yielded; ending : gen_end }.

Definition gen_docids (l : list Z) : generated :=
  {| yields := Docid <$> l; ending := Exhausted |}.

(** [limit and n >= limit] *)
Definition limit_reached (limit : option Z) (n : Z) : bool :=
  match limit with
  | None => false
  | Some l => negb (l =? 0) && (l <=? n)
  end.

(** The generator [nsort]: the pairs [(val, docid)] of the docids that have a
    reverse entry. *)
Definition nsort (rev_index : gmap Z Z) (docids : list Z) : list (Z * Z) :=
  omap (λ docid, (λ val, (val, docid)) <$> rev_index !! docid) docids.

(** The loop "lifted from heapq.nsmallest": [result[-1]] fails on an empty
    list. *)
Fixpoint nsmallest_loop (result : list (Z * Z)) (los : Z * Z)
    (it : list (Z * Z)) : outcome (list (Z * Z)) :=
  match it with
  | [] => Ok result
  | elem :: it' =>
      if pair_le los elem then nsmallest_loop result los it'
      else
        let result' := removelast (insort pair_lt elem result) in
        match last result' with
        | None => Raise IndexError
        | Some los' => nsmallest_loop result' los' it'
        end
  end.

Definition sort_nbest (rev_index : gmap Z Z) (docids : list Z)
    (reverse : bool) (limit : option Z) : generated :=
  let iterable := nsort rev_index docids in
  if reverse then
    match heapq_nlargest limit iterable with
    | Ok l => gen_docids (l.*2)
    | Raise e => {| yields := []; ending := Raised e |}
    end
  else
    let '(head, it) := islice iterable limit in
    let result := sorted pair_lt head in
    match last result with
    | None =>
        (* [yield StopIteration], then [los = result[-1]] *)
        {| yields := [StopIterationClass]; ending := Raised IndexError |}
    | Some los =>
        match nsmallest_loop result los it with
        | Ok result => gen_docids (result.*2)
        | Raise e => {| yields := []; ending := Raised e |}
        end
    end.

(** The inner loop of the lazy walk and of the full sort: emit the docids
    until the limit is hit.  The result is what was emitted, the counter [n]
    and whether [StopIteration] was raised. *)
Fixpoint emit (limit : option Z) (n : Z) (docids : list Z)
  : list Z * Z * bool :=
  match docids with
  | [] => ([], n, false)
  | docid :: rest =>
      if limit_reached limit n then ([], n, true)
      else
        let '(out, n', stop) := emit limit (n + 1) rest in
        (docid :: out, n', stop)
  end.

Fixpoint sort_lazy_loop (docids : gset Z) (limit : option Z) (n : Z)
    (buckets : list (gset Z)) : list Z :=
  match buckets with
  | [] => []
  | stored_docids :: rest =>
      let isect := docids ∩ stored_docids in
      let '(out, n', stop) := emit limit n (iter_set isect) in
      if stop then out else out ++ sort_lazy_loop docids limit n' rest
  end.

Definition sort_lazy (fwd_index : gmap Z (gset Z)) (docids : gset Z)
    (limit : option Z) : generated :=
  gen_docids (sort_lazy_loop docids limit 0 (btree_values fwd_index)).

Definition sort_full (rev_index : gmap Z Z) (docids : list Z)
    (reverse : bool) (limit : option Z) : generated :=
  let ordered := sorted_by key_lt (λ docid, rev_index !! docid) reverse docids in
  (* docids that are not in this index are skipped *)
  let present := filter (λ docid, is_Some (rev_index !! docid)) ordered in
  gen_docids (emit limit 0 present).1.1.

(** The three ways [sort] can go. *)
Inductive strategy :=
  | NBest
  | LazyAscending
  | FullSort.

(** The choice made from [use_lazy], [use_nbest] (computed, then overridden
    by the attributes of the same names) and [reverse]. *)
Definition select_strategy (self : CatalogFieldIndex) (rlen : Z)
    (reverse : bool) (limit : option Z) : strategy :=
  let numdocs := _num_docs self in
  let lazy := (numdocs * (rlen / 100 + 1) <? rlen) || use_lazy self in
  let nbest :=
    match limit with
    | Some l => l * 4 <? rlen
    | None => false
    end || use_nbest self in
  if nbest then NBest
  else if lazy && negb reverse then LazyAscending
  else FullSort.

Definition sort (self : CatalogFieldIndex) (docids : gset Z)
    (reverse : bool) (limit : option Z) : generated :=
  if match limit with Some l => l <? 1 | None => false end then
    {| yields := []; ending := Raised (ValueError LimitTooSmall) |}
  else if decide (docids = ∅) then gen_docids []
  else if _num_docs self =? 0 then gen_docids []
  else
    match select_strategy self (Z.of_nat (size docids)) reverse limit with
    | NBest => sort_nbest (_rev_index self) (iter_set docids) reverse limit
    | LazyAscending => sort_lazy (_fwd_index self) docids limit
    | FullSort => sort_full (_rev_index self) (iter_set docids) reverse limit
    end.

End Field.

(** ** CatalogKeywordIndex *)

Module Keyword.

(** The Python objects a keyword query is made of: a single term or a
    sequence of terms. *)
Inductive pyquery :=
  | PyStr (s : string)
  | PyList (words : list string).

(** The argument of [apply]: a raw query or a [dict]. *)
Inductive query_arg :=
  | Raw (q : pyquery)
  | Dict (d : gmap string pyquery).

Record CatalogKeywordIndex := {
  _fwd_index : gmap string (gset Z)   (* term -> set of docids *)
}.

(** The keys of the [IF] sets of [family32] are 32-bit integers. *)
Definition int32 (n : Z) : bool := (- 2 ^ 31 <=? n) && (n <? 2 ^ 31).

(** The body of the loop of [_insert_forward].  [idx[word].insert(docid)]
    raises [TypeError] for a docid that is no 32-bit integer; the set
    created for a new word just before stays in the index. *)
Definition insert_word (docid : Z) (word : string)
  : M CatalogKeywordIndex unit :=
  λ self,
    let idx := _fwd_index self in
    let idx' := if decide (is_Some (idx !! word)) then idx
                else <[word := ∅]> idx in
    if int32 docid then
      (Ok tt,
       {| _fwd_index := <[word := default ∅ (idx' !! word) ∪ {[docid]}]> idx' |})
    else (Raise TypeError, {| _fwd_index := idx' |}).

(** [_insert_forward(docid, words)] *)
Definition _insert_forward (docid : Z) (words : list string)
  : M CatalogKeywordIndex unit :=
  for_each words (insert_word docid).

(** The lookup [{'and': intersection, 'or': union}[operator]]. *)
Definition combinator (operator : pyquery)
  : outcome (option (gset Z) → option (gset Z) → option (gset Z)) :=
  match operator with
  | PyStr op =>
      if decide (op = "and") then Ok IF_intersection
      else if decide (op = "or") then Ok IF_union
      else Raise KeyError
  | PyList _ => Raise TypeError (* unhashable *)
  end.

(** [search(query, operator)] *)
Definition search (self : CatalogKeywordIndex) (query operator : pyquery)
  : outcome (gset Z) :=
  let query := match query with PyStr s => [s] | PyList words => words end in
  match combinator operator with
  | Raise e => Raise e
  | Ok f =>
      let rs :=
        foldl (λ rs word,
                 let docids := default ∅ (_fwd_index self !! word) in
                 f rs (Some docids))
              None query in
      match rs with
      | Some rs => if decide (rs = ∅) then Ok ∅ else Ok rs
      | None => Ok ∅
      end
  end.

(** [apply(query)].  The state is the index together with the caller's
    query object, which [query.pop] changes in place. *)
Definition apply : M (CatalogKeywordIndex * query_arg) (gset Z) :=
  λ '(self, query),
    match query with
    | Raw q => (search self q (PyStr "and"), (self, query))
    | Dict d =>
        let '(operator, d') :=
          match d !! "operator" with
          | Some op => (op, delete "operator" d)
          | None => (PyStr "and", d)
          end in
        match d' !! "query" with
        | None => (Raise KeyError, (self, Dict d'))
        | Some q => (search self q operator, (self, Dict d'))
        end
    end.

End Keyword.

(** ** Catalog *)

(** The interfaces an index provides: [IInjection] and [IIndexSearch] of
    zope.index, plus [sort] where the index has one. *)
Class Injection (I Doc : Type) := {
  inj_index_doc : Z → Doc → M I unit;
  inj_unindex_doc : Z → M I unit
}.

Class IndexSearch (I Q : Type) := {
  (* the result is [None], a set of docids, or an exception; next to it
     the query object as the call leaves it *)
  idx_apply : I → Q → outcome (option (gset Z)) * Q;
  (* absent for an index without a [sort] method *)
  idx_sort : I → option (gset Z → bool → option Z → Field.generated)
}.

Global Instance field_injection : Injection Field.CatalogFieldIndex (document Z) := {
  inj_index_doc := Field.index_doc;
  inj_unindex_doc := λ docid, modify (Field.unindex_doc docid)
}.

Global Instance keyword_search
  : IndexSearch Keyword.CatalogKeywordIndex Keyword.query_arg := {
  idx_apply := λ self query,
    let '(r, (_, query')) := Keyword.apply (self, query) in
    (match r with
     | Ok r => Ok (Some r)
     | Raise e => Raise e
     end, query');
  idx_sort := λ _, None
}.

Module Cat.

(** A document id as the caller passes it. *)
Inductive pyid :=
  | PyInt (n : Z)
  | PyOther (repr : string).

Definition assertint {S} (docid : pyid) : M S Z :=
  match docid with
  | PyInt n => mret n
  | PyOther _ => raise (ValueError NotAnInteger)
  end.

(** What [searchResults] returns next to the count. *)
Inductive result_seq :=
  | ResultSet (r : gset Z)
  | EmptyTuple
  | Sorted (g : Field.generated).

Section Catalog.
Context {I : Type}.

(** The mapping from names to indexes, in the order [values()] walks it. *)
Definition Catalog : Type := list (string * I).

Fixpoint get (self : Catalog) (name : string) : option I :=
  match self with
  | [] => None
  | (n, index) :: rest => if decide (n = name) then Some index else get rest name
  end.

Fixpoint set_index (name : string) (index : I) (self : Catalog) : Catalog :=
  match self with
  | [] => [(name, index)]
  | (n, i) :: rest =>
      if decide (n = name) then (n, index) :: rest
      else (n, i) :: set_index name index rest
  end.

(** [for index in self.values(): body(index)] *)
Fixpoint for_values (body : M I unit) : M Catalog unit :=
  λ self,
    match self with
    | [] => (Ok tt, [])
    | (name, index) :: rest =>
        match body index with
        | (Ok _, index') =>
            let '(r, rest') := for_values body rest in
            (r, (name, index') :: rest')
        | (Raise e, index') => (Raise e, (name, index') :: rest)
        end
    end.

Section Injection.
Context {Doc : Type} `{!Injection I Doc}.

Definition index_doc (docid : pyid) (obj : Doc) : M Catalog unit :=
  n ← assertint docid;
  for_values (inj_index_doc n obj).

Definition unindex_doc (docid : pyid) : M Catalog unit :=
  n ← assertint docid;
  for_values (inj_unindex_doc n).

Definition updateIndex (name : string) (items : list (pyid * Doc))
  : M Catalog unit :=
  λ self,
    match get self name with
    | None => (Raise KeyError, self)
    | Some index =>
        let '(r, index') :=
          for_each items (λ '(docid, obj),
            n ← assertint docid;
            inj_index_doc n obj) index in
        (r, set_index name index' self)
    end.

Definition updateIndexes (items : list (pyid * Doc)) : M Catalog unit :=
  for_each items (λ '(docid, obj),
    n ← assertint docid;
    for_values (inj_index_doc n obj)).
End Injection.

Section Search.
Context {Q : Type} `{!IndexSearch I Q}.

Inductive applied :=
  | ShortCircuit (r : gset Z)
  | Collected (results : list (Z * gset Z))
  | Failed (e : error).

(** The loop over [query.items()].  A key of [query] holds a reference to
    its sub-query object, and two keys can hold the same one; [heap] has the
    objects, and [apply] may change the one it is given.  (A reference
    always has its object; the loop is made to fail where the heap has
    none.) *)
Fixpoint apply_indexes (self : Catalog) (query : list (string * nat))
    (results : list (Z * gset Z)) (heap : gmap nat Q)
  : applied * gmap nat Q :=
  match query with
  | [] => (Collected results, heap)
  | (index_name, ref) :: rest =>
      match get self index_name with
      | None => (Failed (ValueError (NoSuchIndex index_name)), heap)
      | Some index =>
          match heap !! ref with
          | None => (Failed TypeError, heap)
          | Some index_query =>
              let '(r, index_query') := idx_apply index index_query in
              let heap' := <[ref := index_query']> heap in
              match r with
              | Raise e => (Failed e, heap')
              | Ok None => apply_indexes self rest results heap'
              | Ok (Some r) =>
                  if decide (r = ∅) then (ShortCircuit r, heap') (* empty results *)
                  else apply_indexes self rest
                         (results ++ [(Z.of_nat (size r), r)]) heap'
              end
          end
      end
  end.

(** [family.IF.weightedIntersection] of two sets: the sum of the
    weights and the intersection. *)
Definition weightedIntersection (c1 c2 : gset Z) : Z * gset Z :=
  (2, c1 ∩ c2).

(** The part of [searchResults] behind the loop: order the collected
    pairs, intersect, sort on request, count.  [results.sort()] orders
    the pairs by their first component. *)
Definition combine_results (self : Catalog) (sort_index : option string)
    (reverse : bool) (limit : option Z) (results : list (Z * gset Z))
  : outcome (Z * result_seq) :=
  match sorted (λ a b : Z * gset Z, a.1 <? b.1) results with
  | [] =>
      (* no applicable indexes, so catalog was not applicable *)
      Ok (0, EmptyTuple)
  | (_, first) :: rest =>
      let result :=
        foldl (λ result r, (weightedIntersection result r.2).2)
              first rest in
      let numdocs := Z.of_nat (size result) in
      let count :=
        match limit with
        | None => numdocs
        | Some l => Z.min numdocs l
        end in
      match sort_index with
      | Some name =>
          if decide (name = "") then Ok (count, ResultSet result)
          else
            match get self name with
            | None => Raise KeyError
            | Some index =>
                match idx_sort index with
                | None => Raise AttributeError
                | Some sort =>
                    Ok (count, Sorted (sort result reverse limit))
                end
            end
      | None => Ok (count, ResultSet result)
      end
  end.

(** What [searchResults] returns or raises once the loop is over. *)
Definition after_loop (self : Catalog) (sort_index : option string)
    (reverse : bool) (limit : option Z) (a : applied)
  : outcome (Z * result_seq) :=
  match a with
  | Failed e => Raise e
  | ShortCircuit r => Ok (0, ResultSet r)
  | Collected results =>
      combine_results self sort_index reverse limit results
  end.

(** [searchResults].  [sort_index], [reverse] and [limit] are the
    reserved keys popped from [query]; [query] lists the remaining
    items in the order [query.items()] yields them, each with the
    reference to its sub-query object.  The state is the heap of these
    objects. *)
Definition searchResults (self : Catalog) (sort_index : option string)
    (reverse : bool) (limit : option Z) (query : list (string * nat))
  : M (gmap nat Q) (Z * result_seq) :=
  λ heap,
    let '(a, heap') := apply_indexes self query [] heap in
    (after_loop self sort_index reverse limit a, heap').
End Search.
End Catalog.

End Cat.

(** ** Histories of a field index *)

Inductive call :=
  | IndexDoc (docid : Z) (object : document Z)
  | UnindexDoc (docid : Z).

Definition run_call (self : Field.CatalogFieldIndex) (c : call)
  : Field.CatalogFieldIndex :=
  match c with
  | IndexDoc docid object => (Field.index_doc docid object self).2
  | UnindexDoc docid => Field.unindex_doc docid self
  end.

Definition run_calls (calls : list call) (self : Field.CatalogFieldIndex)
  : Field.CatalogFieldIndex :=
  foldl run_call self calls.

(** Forward/reverse consistency as section 8 of the specification words it:
    every id of the reverse index is in the forward bucket of its value, and
    the counter is the size of the reverse index. *)
Definition consistent (self : Field.CatalogFieldIndex) : Prop :=
  (∀ docid value, Field._rev_index self !! docid = Some value →
     ∃ set, Field._fwd_index self !! value = Some set ∧ docid ∈ set) ∧
  Field._num_docs self = Z.of_nat (size (Field._rev_index self)).

(** The data-model invariant in both directions. *)
Definition well_formed (self : Field.CatalogFieldIndex) : Prop :=
  consistent self ∧
  ∀ value set docid, Field._fwd_index self !! value = Some set → docid ∈ set →
    Field._rev_index self !! docid = Some value.

(** ** Example states *)

(** A document with the single attribute [f]. *)
Definition doc_f (v : pyvalue Z) : document Z := {[ "f" := v ]}.

Definition empty_index : Field.CatalogFieldIndex :=
  Field.new_field_index (AttrName "f").

(** The field index of Example 1: 1 -> "b", 2 -> "a", 3 -> "c", with the
    strings coded as 20, 10 and 30. *)
Definition abc_calls : list call :=
  [IndexDoc 1 (doc_f (Plain 20)); IndexDoc 2 (doc_f (Plain 10));
   IndexDoc 3 (doc_f (Plain 30))].
Definition abc_index : Field.CatalogFieldIndex := run_calls abc_calls empty_index.

(** One document, id 1 with value 20. *)
Definition one_calls : list call := [IndexDoc 1 (doc_f (Plain 20))].
Definition one_index : Field.CatalogFieldIndex := run_calls one_calls empty_index.

Definition force_nbest (self : Field.CatalogFieldIndex) : Field.CatalogFieldIndex :=
  {| Field.discriminator := Field.discriminator self;
     Field._fwd_index := Field._fwd_index self;
     Field._rev_index := Field._rev_index self;
     Field._num_docs := Field._num_docs self;
     Field.use_lazy := Field.use_lazy self;
     Field.use_nbest := true |}.

Definition force_lazy (self : Field.CatalogFieldIndex) : Field.CatalogFieldIndex :=
  {| Field.discriminator := Field.discriminator self;
     Field._fwd_index := Field._fwd_index self;
     Field._rev_index := Field._rev_index self;
     Field._num_docs := Field._num_docs self;
     Field.use_lazy := true;
     Field.use_nbest := Field.use_nbest self |}.

(** A state no history produces: id 1 has a reverse entry and no bucket. *)
Definition orphan_index : Field.CatalogFieldIndex :=
  {| Field.discriminator := AttrName "f";
     Field._fwd_index := ∅;
     Field._rev_index := {[ 1 := 20 ]};
     Field._num_docs := 1;
     Field.use_lazy := false;
     Field.use_nbest := false |}.

(** ** Keyword search as section 4.4 of the specification words it *)

(** The posting set of a term: the empty set for an unknown term. *)
Definition postings (self : Keyword.CatalogKeywordIndex) (term : string)
  : gset Z :=
  default ∅ (Keyword._fwd_index self !! term).

(** The first term seeds the running result with its posting set; every
    later term is combined into it; no term at all gives the empty set. *)
Definition combine_postings (op : gset Z → gset Z → gset Z)
    (self : Keyword.CatalogKeywordIndex) (terms : list string) : gset Z :=
  match terms with
  | [] => ∅
  | first :: rest =>
      foldl (λ running term, op running (postings self term))
            (postings self first) rest
  end.

(** The keyword index of Example 2: 1 -> red, big; 2 -> red. *)
Definition red_big_index : Keyword.CatalogKeywordIndex :=
  (Keyword._insert_forward 2 ["red"]
     (Keyword._insert_forward 1 ["red"; "big"]
        {| Keyword._fwd_index := ∅ |}).2).2.

(** ** Example catalogs *)

Definition field_catalog : Cat.Catalog (I := Field.CatalogFieldIndex) :=
  [("f", empty_index)].

(** A bulk update whose second id is not an integer. *)
Definition mixed_items : list (Cat.pyid * document Z) :=
  [(Cat.PyInt 1, doc_f (Plain 20)); (Cat.PyOther "two", doc_f (Plain 10))].

(** Two keyword indexes as in Example 3: [A] selects 1, 2, 3 for the
    term a, [B] selects 2, 3, 4 for the term b. *)
Definition index_A : Keyword.CatalogKeywordIndex :=
  (Keyword._insert_forward 3 ["a"]
     (Keyword._insert_forward 2 ["a"]
        (Keyword._insert_forward 1 ["a"] {| Keyword._fwd_index := ∅ |}).2).2).2.
Definition index_B : Keyword.CatalogKeywordIndex :=
  (Keyword._insert_forward 4 ["b"]
     (Keyword._insert_forward 3 ["b"]
        (Keyword._insert_forward 2 ["b"] {| Keyword._fwd_index := ∅ |}).2).2).2.
Definition keyword_catalog : Cat.Catalog (I := Keyword.CatalogKeywordIndex) :=
  [("A", index_A); ("B", index_B)].

(** The sub-query objects of the examples: three raw terms, each its own
    object. *)
Definition raw_heap : gmap nat Keyword.query_arg :=
  {[ 0%nat := Keyword.Raw (Keyword.PyStr "a");
     1%nat := Keyword.Raw (Keyword.PyStr "b");
     2%nat := Keyword.Raw (Keyword.PyStr "zzz") ]}.

Definition query_AB : list (string * nat) := [("A", 0%nat); ("B", 1%nat)].
Definition query_BA : list (string * nat) := [("B", 1%nat); ("A", 0%nat)].

(** A query with a sub-query that matches nothing and a key that names no
    index, in both orders. *)
Definition query_empty_unknown : list (string * nat) :=
  [("A", 2%nat); ("nope", 0%nat)].
Definition query_unknown_empty : list (string * nat) :=
  [("nope", 0%nat); ("A", 2%nat)].

(** Two keyword indexes and one dict that both keys of a query hold:
    [X] has 1 under x and under y, [Y] has 1 under x and 2 under y. *)
Definition index_X : Keyword.CatalogKeywordIndex :=
  (Keyword._insert_forward 1 ["x"; "y"] {| Keyword._fwd_index := ∅ |}).2.
Definition index_Y : Keyword.CatalogKeywordIndex :=
  (Keyword._insert_forward 2 ["y"]
     (Keyword._insert_forward 1 ["x"] {| Keyword._fwd_index := ∅ |}).2).2.
Definition xy_catalog : Cat.Catalog (I := Keyword.CatalogKeywordIndex) :=
  [("X", index_X); ("Y", index_Y)].
Definition shared_heap : gmap nat Keyword.query_arg :=
  {[ 0%nat := Keyword.Dict {[ "operator" := Keyword.PyStr "or";
                              "query" := Keyword.PyList ["x"; "y"] ]} ]}.
Definition query_shared_XY : list (string * nat) := [("X", 0%nat); ("Y", 0%nat)].
Definition query_shared_YX : list (string * nat) := [("Y", 0%nat); ("X", 0%nat)].

(** A dict with an operator that only one key holds, next to a raw term. *)
Definition private_heap : gmap nat Keyword.query_arg :=
  {[ 0%nat := Keyword.Dict {[ "operator" := Keyword.PyStr "or";
                              "query" := Keyword.PyList ["a"; "zzz"] ]};
     1%nat := Keyword.Raw (Keyword.PyStr "b") ]}.

(** ** What one sub-query does inside the loop of searchResults *)

Inductive item_result :=
  | ItemFails (e : error)
  | ItemSkipped
  | ItemEmpty
  | ItemSet (r : gset Z).

Definition classify (r : outcome (option (gset Z))) : item_result :=
  match r with
  | Raise e => ItemFails e
  | Ok None => ItemSkipped
  | Ok (Some r) => if decide (r = ∅) then ItemEmpty else ItemSet r
  end.

(** One turn of the loop on the heap as it is: what the sub-query comes to,
    and the heap the call leaves. *)
Definition apply_item {I Q : Type} `{!IndexSearch I Q} (self : Cat.Catalog)
    (heap : gmap nat Q) (item : string * nat) : item_result * gmap nat Q :=
  match Cat.get self item.1 with
  | None => (ItemFails (ValueError (NoSuchIndex item.1)), heap)
  | Some index =>
      match heap !! item.2 with
      | None => (ItemFails TypeError, heap)
      | Some q =>
          (classify (idx_apply index q).1,
           <[item.2 := (idx_apply index q).2]> heap)
      end
  end.

Definition collected_pair (r : item_result) : option (Z * gset Z) :=
  match r with
  | ItemSet r => Some (Z.of_nat (size r), r)
  | _ => None
  end.

(** The loop on the outcomes of the sub-queries alone. *)
Fixpoint loop_over (rs : list item_result) (acc : list (Z * gset Z))
  : Cat.applied :=
  match rs with
  | [] => Cat.Collected acc
  | ItemFails e :: _ => Cat.Failed e
  | ItemSkipped :: rs => loop_over rs acc
  | ItemEmpty :: _ => Cat.ShortCircuit ∅
  | ItemSet r :: rs => loop_over rs (acc ++ [(Z.of_nat (size r), r)])
  end.

(** Every sub-query, taken on the objects as they are passed, names a
    registered index whose [apply] returns. *)
Definition evaluates {I Q : Type} `{!IndexSearch I Q} (self : Cat.Catalog)
    (heap : gmap nat Q) (query : list (string * nat)) : Prop :=
  ∀ item, item ∈ query → ∀ e, (apply_item self heap item).1 ≠ ItemFails e.

(** A sub-query object that two keys of the query hold is left as it is by
    [apply]: each item either has its object to itself or does not change
    it. *)
Definition unaliased {I Q : Type} `{!IndexSearch I Q} (self : Cat.Catalog)
    (heap : gmap nat Q) (query : list (string * nat)) : Prop :=
  ∀ item, item ∈ query →
    (∀ item', item' ∈ query → item'.2 = item.2 → item'.1 = item.1) ∨
    (apply_item self heap item).2 = heap.

(** The heap after the sub-queries of [query] have been applied in turn. *)
Fixpoint heap_after {I Q : Type} `{!IndexSearch I Q} (self : Cat.Catalog)
    (heap : gmap nat Q) (query : list (string * nat)) : gmap nat Q :=
  match query with
  | [] => heap
  | item :: rest => heap_after self (apply_item self heap item).2 rest
  end.

(** Each sub-query, applied in its turn to the heap its predecessors left,
    comes to something that satisfies [P]. *)
Fixpoint each_in_turn {I Q : Type} `{!IndexSearch I Q} (P : item_result → Prop)
    (self : Cat.Catalog) (heap : gmap nat Q) (query : list (string * nat))
  : Prop :=
  match query with
  | [] => True
  | item :: rest =>
      P (apply_item self heap item).1 ∧
      each_in_turn P self (apply_item self heap item).2 rest
  end.

(** [x] is not greater than [y] under the strict comparison [lt]. *)
Definition not_gt {A} (lt : A → A → bool) (x y : A) : Prop := lt y x = false.

(** ** The sort as section 4.3 of the specification words it *)

(** The order on document ids given by their indexed values: ascending, or
    descending with [reverse]. *)
Definition value_order (rev_index : gmap Z Z) (reverse : bool)
    (d1 d2 : Z) : Prop :=
  match rev_index !! d1, rev_index !! d2 with
  | Some v1, Some v2 => if reverse then v2 ≤ v1 else v1 ≤ v2
  | _, _ => False
  end.

(** Truncation to [limit], if given. *)
Definition truncate {A} (limit : option Z) (l : list A) : list A :=
  match limit with
  | Some n => take (Z.to_nat n) l
  | None => l
  end.

(** [out] is an answer to the sort request: the candidate ids that have a
    reverse entry, put in some order that is sorted by value (ids with equal
    values in any order), cut to [limit]. *)
Definition sort_answer (rev_index : gmap Z Z) (docids : gset Z)
    (reverse : bool) (limit : option Z) (out : list Z) : Prop :=
  ∃ l, l ≡ₚ filter (λ docid, is_Some (rev_index !! docid)) (elements docids) ∧
       Sorted (value_order rev_index reverse) l ∧
       out = truncate limit l.

(** A limit [sort] accepts. *)
Definition valid_limit (limit : option Z) : Prop :=
  ∀ l, limit = Some l → 1 ≤ l.

(** What the n-best branch needs in order to work: a limit when the sort is
    reversed, since [heapq.nlargest] is called with it, and a candidate with
    a reverse entry when it is not. *)
Definition nbest_defined (self : Field.CatalogFieldIndex) (docids : gset Z)
    (reverse : bool) (limit : option Z) : Prop :=
  Field.select_strategy self (Z.of_nat (size docids)) reverse limit = Field.NBest →
  if reverse then is_Some limit
  else ∃ docid, docid ∈ docids ∧ is_Some (Field._rev_index self !! docid).

(** The ids the lazy walk meets, bucket after bucket, when no limit stops
    it. *)
Definition lazy_walk (docids : gset Z) (items : list (Z * gset Z)) : list Z :=
  concat (map (λ item, iter_set (docids ∩ item.2)) items).

(** The order [value_order] induces on the looked-up values. *)
Definition looked_up_order (reverse : bool) (a b : option Z) : Prop :=
  match a, b with
  | Some v1, Some v2 => if reverse then v2 ≤ v1 else v1 ≤ v2
  | _, _ => False
  end.

(** Same stores, possibly different [use_lazy] and [use_nbest] overrides. *)
Definition same_store (self1 self2 : Field.CatalogFieldIndex) : Prop :=
  Field._fwd_index self1 = Field._fwd_index self2 ∧
  Field._rev_index self1 = Field._rev_index self2 ∧
  Field._num_docs self1 = Field._num_docs self2.

(** ** Tie order of the sort *)

(** The strict order of the emitted ids: by value, ascending or descending
    with [reverse]; ids with equal values by ascending docid, or by
    descending docid with [descending_ties]. *)
Definition tie_order (rev_index : gmap Z Z) (reverse descending_ties : bool)
    (d1 d2 : Z) : Prop :=
  match rev_index !! d1, rev_index !! d2 with
  | Some v1, Some v2 =>
      (if reverse then v2 < v1 else v1 < v2) ∨
      (v1 = v2 ∧ if descending_ties then d2 < d1 else d1 < d2)
  | _, _ => False
  end.

(** Only the n-best branch of a reversed sort turns the ties around. *)
Definition ties_descend (s : Field.strategy) (reverse : bool) : bool :=
  match s with
  | Field.NBest => reverse
  | _ => false
  end.

(** What a stable sort by [lt] makes of an input ordered by [ord]. *)
Definition stable_order {A} (lt : A → A → bool) (ord : relation A)
    (x y : A) : Prop :=
  lt x y = true ∨ (lt x y = false ∧ lt y x = false ∧ ord x y).

(** Two documents with the same value: 1 -> 10, 2 -> 10. *)
Definition tie_calls : list call :=
  [IndexDoc 1 (doc_f (Plain 10)); IndexDoc 2 (doc_f (Plain 10))].
Definition tie_index : Field.CatalogFieldIndex := run_calls tie_calls empty_index.

(** [docid] sits in some bucket of the forward index, under [value]. *)
Definition in_bucket (fwd : gmap Z (gset Z)) (value docid : Z) : Prop :=
  ∃ set, fwd !! value = Some set ∧ docid ∈ set.

(** No bucket of the forward index is empty. *)
Definition no_empty_bucket (fwd : gmap Z (gset Z)) : Prop :=
  ∀ value set, fwd !! value = Some set → set ≠ ∅.

(** What [for index in self.values(): body(index)] leaves behind when every
    call returns: each index as its call left it, under its name and at its
    place. *)
Definition all_updated {I : Type} (body : M I unit)
    (self : Cat.Catalog (I := I)) : Cat.Catalog (I := I) :=
  (λ item, (item.1, (body item.2).2)) <$> self.

(** A catalog of two field indexes, on the attributes [f] and [g]. *)
Definition two_field_catalog : Cat.Catalog (I := Field.CatalogFieldIndex) :=
  [("f", empty_index); ("g", Field.new_field_index (AttrName "g"))].

(** A document whose attribute [g] is a persistent object. *)
Definition doc_fg : document Z :=
  {[ "f" := Plain 20; "g" := PersistentObject 9 ]}.

(** One sub-query lets the loop of searchResults go on: its index returned
    [None] or a set that is not empty. *)
Definition goes_on (r : item_result) : Prop :=
  r = ItemSkipped ∨ ∃ s, r = ItemSet s.

(** A heap with a query of unknown operator, on which [apply] raises
    [KeyError]. *)
Definition xor_heap : gmap nat Keyword.query_arg :=
  {[ 1%nat := Keyword.Raw (Keyword.PyStr "b");
     2%nat := Keyword.Raw (Keyword.PyStr "zzz");
     3%nat := Keyword.Dict {[ "operator" := Keyword.PyStr "xor";
                              "query" := Keyword.PyStr "a" ]} ]}.

(** An index that answers a query or declares itself not applicable by
    returning [None]: the keyword index behind a switch. *)
Global Instance switched_search
  : IndexSearch (bool * Keyword.CatalogKeywordIndex) Keyword.query_arg := {
  idx_apply := λ self query,
    if self.1 then idx_apply self.2 query else (Ok None, query);
  idx_sort := λ _, None
}.

Definition switched_catalog
  : Cat.Catalog (I := bool * Keyword.CatalogKeywordIndex) :=
  [("A", (true, index_A)); ("off", (false, index_B))].

(** * Theorems *)

(** Reduce the projections of a rebuilt index record, nothing else. *)
Ltac store_simpl :=
  cbn [Field.with_store Field._fwd_index Field._rev_index Field._num_docs
       Field.use_lazy Field.use_nbest Field.discriminator].

(** ** Field index: unindexing and indexing *)

Section unindex_forward.
Implicit Types (fwd : gmap Z (gset Z)) (docid value : Z).

Lemma unindex_doc_forward_subset fwd docid value v set d :
  Field.unindex_doc_forward docid value fwd !! v = Some set → d ∈ set →
  ∃ set0, fwd !! v = Some set0 ∧ d ∈ set0.
Proof.
  unfold Field.unindex_doc_forward.
  destruct (fwd !! value) as [s|] eqn:Hs; [|by eauto].
  destruct (decide (docid ∈ s)); [|by eauto].
  destruct (decide (s ∖ {[docid]} = ∅)); intros Hl Hd;
    (destruct (decide (v = value)) as [->|Hne];
     [|rewrite ?lookup_delete_ne, ?lookup_insert_ne in Hl by done; by eauto]).
  - by rewrite lookup_delete_eq in Hl.
  - rewrite lookup_insert_eq in Hl. injection Hl as <-.
    exists s. split; [done|]. by apply elem_of_difference in Hd as [? _].
Qed.

Lemma unindex_doc_forward_removed fwd docid value set :
  Field.unindex_doc_forward docid value fwd !! value = Some set → docid ∉ set.
Proof.
  unfold Field.unindex_doc_forward.
  destruct (fwd !! value) as [s|] eqn:Hs; [|congruence].
  destruct (decide (docid ∈ s)); [|congruence].
  destruct (decide (s ∖ {[docid]} = ∅)).
  - by rewrite lookup_delete_eq.
  - rewrite lookup_insert_eq. intros [= <-] [_ Hn]%elem_of_difference.
    apply Hn. by apply elem_of_singleton.
Qed.

Lemma unindex_doc_forward_keeps fwd docid value v set d :
  fwd !! v = Some set → d ∈ set → d ≠ docid →
  ∃ set', Field.unindex_doc_forward docid value fwd !! v = Some set' ∧ d ∈ set'.
Proof.
  intros Hv Hd Hne. unfold Field.unindex_doc_forward.
  destruct (fwd !! value) as [s|] eqn:Hs; [|by eauto].
  destruct (decide (docid ∈ s)); [|by eauto].
  destruct (decide (v = value)) as [->|Hv'].
  - assert (s = set) as -> by congruence.
    destruct (decide (set ∖ {[docid]} = ∅)) as [He|]; [exfalso; set_solver|].
    exists (set ∖ {[docid]}). rewrite lookup_insert_eq. split; [done|set_solver].
  - destruct (decide (s ∖ {[docid]} = ∅)).
    + rewrite lookup_delete_ne by done. eauto.
    + rewrite lookup_insert_ne by done. eauto.
Qed.
End unindex_forward.

Lemma consistent_unindex_doc self docid :
  consistent self → consistent (Field.unindex_doc docid self).
Proof.
  intros [Hfwd Hn]. unfold Field.unindex_doc.
  destruct (Field._rev_index self !! docid) as [value|] eqn:Hrev; [|done].
  split; store_simpl.
  - intros d v Hd. apply lookup_delete_Some in Hd as [Hne Hd].
    destruct (Hfwd d v Hd) as (set & Hset & Hin).
    by eapply unindex_doc_forward_keeps.
  - rewrite map_size_delete_Some, Hn by eauto.
    assert (size (Field._rev_index self) ≠ 0%nat)
      by (intros Hz%map_size_empty_iff; by rewrite Hz, lookup_empty in Hrev).
    lia.
Qed.

Lemma consistent_FieldIndex_index_doc self docid value :
  consistent self → consistent (Field.FieldIndex_index_doc docid value self).
Proof.
  intros [Hfwd Hn]. unfold Field.FieldIndex_index_doc. split; store_simpl.
  - intros d v Hd. apply lookup_insert_Some in Hd as [[-> ->]|[Hne Hd]].
    + rewrite lookup_insert_eq. eexists. split; [done|set_solver].
    + destruct (Hfwd d v Hd) as (set & Hset & Hin).
      assert (∃ set', (match Field._rev_index self !! docid with
                       | Some old => Field.unindex_doc_forward docid old
                                       (Field._fwd_index self)
                       | None => Field._fwd_index self
                       end) !! v = Some set' ∧ d ∈ set') as (set' & Hset' & Hin').
      { destruct (Field._rev_index self !! docid); [|by eauto].
        by eapply unindex_doc_forward_keeps. }
      destruct (decide (v = value)) as [->|Hv].
      * rewrite lookup_insert_eq. eexists. split; [done|].
        rewrite Hset'. set_solver.
      * rewrite lookup_insert_ne by done. eauto.
  - destruct (Field._rev_index self !! docid) eqn:Hrev.
    + rewrite map_size_insert_Some by eauto. done.
    + rewrite map_size_insert_None by done. lia.
Qed.

Lemma index_doc_state self docid object :
  (Field.index_doc docid object self).2 =
    match discriminate (Field.discriminator self) object with
    | Marker => Field.unindex_doc docid self
    | Value (PersistentObject _) => self
    | Value (Plain v) => Field.FieldIndex_index_doc docid v self
    end.
Proof.
  unfold Field.index_doc, CatalogIndex_index_doc.
  destruct (discriminate _ _) as [|[v|oid]]; reflexivity.
Qed.

Lemma consistent_run_call self c : consistent self → consistent (run_call self c).
Proof.
  intros Hc. destruct c as [docid object|docid]; simpl.
  - rewrite index_doc_state. destruct (discriminate _ _) as [|[v|oid]].
    + by apply consistent_unindex_doc.
    + by apply consistent_FieldIndex_index_doc.
    + done.
  - by apply consistent_unindex_doc.
Qed.

Lemma consistent_new d : consistent (Field.new_field_index d).
Proof.
  split; simpl.
  - intros docid value. by rewrite lookup_empty.
  - by rewrite map_size_empty.
Qed.

Lemma well_formed_unindex_doc self docid :
  well_formed self → well_formed (Field.unindex_doc docid self).
Proof.
  intros [Hc Hback]. split; [by apply consistent_unindex_doc|].
  unfold Field.unindex_doc.
  destruct (Field._rev_index self !! docid) as [value|] eqn:Hrev; [|done].
  store_simpl. intros v set d Hset Hd.
  destruct (unindex_doc_forward_subset _ _ _ _ _ _ Hset Hd) as (set0 & Hset0 & Hd0).
  pose proof (Hback _ _ _ Hset0 Hd0) as Hrevd.
  destruct (decide (d = docid)) as [->|Hne].
  - assert (v = value) as -> by congruence.
    by apply unindex_doc_forward_removed in Hset.
  - by rewrite lookup_delete_ne.
Qed.

Lemma well_formed_FieldIndex_index_doc self docid value :
  well_formed self → well_formed (Field.FieldIndex_index_doc docid value self).
Proof.
  intros [Hc Hback]. split; [by apply consistent_FieldIndex_index_doc|].
  unfold Field.FieldIndex_index_doc. store_simpl.
  set (fwd := match Field._rev_index self !! docid with
              | Some old => Field.unindex_doc_forward docid old (Field._fwd_index self)
              | None => Field._fwd_index self
              end).
  assert (Hsub : ∀ v set d, fwd !! v = Some set → d ∈ set →
                   Field._rev_index self !! d = Some v ∧ d ≠ docid).
  { intros v set d Hset Hd. subst fwd.
    destruct (Field._rev_index self !! docid) as [old|] eqn:Hrev.
    - destruct (unindex_doc_forward_subset _ _ _ _ _ _ Hset Hd)
        as (set0 & Hset0 & Hd0).
      pose proof (Hback _ _ _ Hset0 Hd0) as Hrevd. split; [done|].
      intros ->. assert (v = old) as -> by congruence.
      by apply unindex_doc_forward_removed in Hset.
    - pose proof (Hback _ _ _ Hset Hd) as Hrevd. split; [done|congruence]. }
  intros v set d Hset Hd.
  destruct (decide (v = value)) as [->|Hv].
  - rewrite lookup_insert_eq in Hset. injection Hset as <-.
    apply elem_of_union in Hd as [Hd|Hd%elem_of_singleton].
    + destruct (fwd !! value) as [s|] eqn:Hs; [|set_solver].
      destruct (Hsub _ _ _ Hs Hd) as [Hrevd Hne].
      by rewrite lookup_insert_ne.
    + subst d. by rewrite lookup_insert_eq.
  - rewrite lookup_insert_ne in Hset by done.
    destruct (Hsub _ _ _ Hset Hd) as [Hrevd Hne].
    by rewrite lookup_insert_ne.
Qed.

Lemma well_formed_run_call self c : well_formed self → well_formed (run_call self c).
Proof.
  intros Hw. destruct c as [docid object|docid]; simpl.
  - rewrite index_doc_state. destruct (discriminate _ _) as [|[v|oid]].
    + by apply well_formed_unindex_doc.
    + by apply well_formed_FieldIndex_index_doc.
    + done.
  - by apply well_formed_unindex_doc.
Qed.

(** Every state a history reaches satisfies the invariant in both
    directions. *)
Lemma well_formed_run_calls (d : discriminator_of Z) (calls : list call) :
  well_formed (run_calls calls (Field.new_field_index d)).
Proof.
  assert (Hnew : well_formed (Field.new_field_index d)).
  { split; [apply consistent_new|]. simpl. intros v set docid.
    by rewrite lookup_empty. }
  unfold run_calls. revert Hnew. generalize (Field.new_field_index d) as self.
  induction calls as [|c calls IH]; intros self Hw; simpl; [done|].
  apply IH. by apply well_formed_run_call.
Qed.

(** C6.  After every sequence of [index_doc] and [unindex_doc] calls on a
    freshly created field index, each id of the reverse index is a member of
    the forward bucket of its value, and the document counter equals the
    number of reverse entries.  Every prefix of a sequence is a sequence, so
    the property holds at every point of a history. *)
Theorem forward_reverse_consistency (d : discriminator_of Z) (calls : list call) :
  consistent (run_calls calls (Field.new_field_index d)).
Proof.
  unfold run_calls. generalize (consistent_new d).
  generalize (Field.new_field_index d) as self.
  induction calls as [|c calls IH]; intros self Hc; simpl; [done|].
  apply IH. by apply consistent_run_call.
Qed.

(** C10.  When [unindex_doc] finds the id in the reverse index and no forward
    bucket for its value, the reverse entry is deleted, the counter goes down
    by one and the forward index is left as it is; if the counter was the
    size of the reverse index before, it is so afterwards. *)
Theorem unindex_doc_missing_bucket (self : Field.CatalogFieldIndex)
    (docid value : Z) :
  Field._rev_index self !! docid = Some value →
  Field._fwd_index self !! value = None →
  Field._rev_index (Field.unindex_doc docid self)
    = delete docid (Field._rev_index self) ∧
  Field._num_docs (Field.unindex_doc docid self) = Field._num_docs self - 1 ∧
  Field._fwd_index (Field.unindex_doc docid self) = Field._fwd_index self ∧
  (Field._num_docs self = Z.of_nat (size (Field._rev_index self)) →
   Field._num_docs (Field.unindex_doc docid self)
     = Z.of_nat (size (Field._rev_index (Field.unindex_doc docid self)))).
Proof.
  intros Hrev Hfwd. unfold Field.unindex_doc. rewrite Hrev. store_simpl.
  unfold Field.unindex_doc_forward. rewrite Hfwd.
  repeat split. intros Hn. rewrite map_size_delete_Some, Hn by eauto.
  assert (size (Field._rev_index self) ≠ 0%nat)
    by (intros Hz%map_size_empty_iff; by rewrite Hz, lookup_empty in Hrev).
  lia.
Qed.

Lemma unindex_doc_missing_bucket_witness :
  Field._rev_index (Field.unindex_doc 1 orphan_index) = ∅ ∧
  Field._num_docs (Field.unindex_doc 1 orphan_index) = 0.
Proof.
  destruct (unindex_doc_missing_bucket orphan_index 1 20) as (H1 & H2 & _).
  - reflexivity.
  - reflexivity.
  - split; [rewrite H1|rewrite H2]; reflexivity.
Defined.

(** C7.  Whatever the index state and whatever the methods of the index
    class, [index_doc] on a document whose discriminated value is a
    persistent object raises the [ValueError] for persistent values and
    leaves the index as it was. *)
Theorem index_doc_persistent_value {Self V : Type}
    (discriminator : Self → discriminator_of V)
    (super_unindex_doc : Z → M Self unit)
    (super_index_doc : Z → V → M Self unit)
    (self : Self) (docid : Z) (object : document V) (oid : Z) :
  discriminate (discriminator self) object = Value (PersistentObject oid) →
  CatalogIndex_index_doc discriminator super_unindex_doc super_index_doc
      docid object self
    = (Raise (ValueError PersistentValue), self).
Proof.
  intros Hv. unfold CatalogIndex_index_doc. by rewrite Hv.
Qed.

Lemma index_doc_persistent_value_witness :
  Field.index_doc 4 (doc_f (PersistentObject 77)) abc_index
    = (Raise (ValueError PersistentValue), abc_index).
Proof.
  apply (index_doc_persistent_value Field.discriminator
           (λ d, modify (Field.FieldIndex_unindex_doc d))
           (λ d v, modify (Field.FieldIndex_index_doc d v))
           abc_index 4 (doc_f (PersistentObject 77)) 77).
  reflexivity.
Defined.

(** ** Keyword index *)

Lemma foldl_IF_intersection (p : string → gset Z) (a : gset Z) (terms : list string) :
  foldl (λ rs word, IF_intersection rs (Some (p word))) (Some a) terms
    = Some (foldl (λ running term, running ∩ p term) a terms).
Proof. revert a. induction terms as [|t terms IH]; intros a; simpl; [done|apply IH]. Qed.

Lemma foldl_IF_union (p : string → gset Z) (a : gset Z) (terms : list string) :
  foldl (λ rs word, IF_union rs (Some (p word))) (Some a) terms
    = Some (foldl (λ running term, running ∪ p term) a terms).
Proof. revert a. induction terms as [|t terms IH]; intros a; simpl; [done|apply IH]. Qed.

(** C5.  For every term sequence, [search] with operator 'and' (resp. 'or')
    returns the fold of the terms' posting sets under intersection (resp.
    union): an unknown term contributes the empty set, the first term seeds
    the running result with exactly its posting set whatever the operator,
    and the result is the empty set when the running result is empty or
    there is no term. *)
Theorem keyword_search_folds (self : Keyword.CatalogKeywordIndex)
    (terms : list string) :
  Keyword.search self (Keyword.PyList terms) (Keyword.PyStr "and")
    = Ok (combine_postings (∩) self terms) ∧
  Keyword.search self (Keyword.PyList terms) (Keyword.PyStr "or")
    = Ok (combine_postings (∪) self terms).
Proof.
  unfold Keyword.search, combine_postings, postings. cbn [Keyword.combinator].
  rewrite decide_True by done.
  rewrite (decide_False (P := "or" = "and")), decide_True by done.
  destruct terms as [|first rest]; [done|]. cbn [foldl IF_intersection IF_union].
  rewrite foldl_IF_intersection, foldl_IF_union.
  split; case_decide; congruence.
Qed.

(** C9.  [apply] on a dict query that has an 'operator' key removes that key
    from the caller's dict and changes nothing else: the index is the same,
    and so is every other entry of the dict. *)
Theorem keyword_apply_pops_operator (self : Keyword.CatalogKeywordIndex)
    (d : gmap string Keyword.pyquery) :
  is_Some (d !! "operator") →
  ∃ d', (Keyword.apply (self, Keyword.Dict d)).2 = (self, Keyword.Dict d') ∧
        d' = delete "operator" d ∧
        d' !! "operator" = None ∧
        ∀ key, key ≠ "operator" → d' !! key = d !! key.
Proof.
  intros [op Hop]. exists (delete "operator" d).
  split; [|split; [done|split]].
  - unfold Keyword.apply. rewrite Hop.
    by destruct (delete "operator" d !! "query").
  - apply lookup_delete_eq.
  - intros key Hkey. by apply lookup_delete_ne.
Qed.

Lemma keyword_apply_pops_operator_witness :
  (Keyword.apply
     (red_big_index,
      Keyword.Dict {[ "operator" := Keyword.PyStr "or";
                      "query" := Keyword.PyList ["red"; "big"] ]})).2
  = (red_big_index, Keyword.Dict {[ "query" := Keyword.PyList ["red"; "big"] ]}).
Proof.
  destruct (keyword_apply_pops_operator red_big_index
              {[ "operator" := Keyword.PyStr "or";
                 "query" := Keyword.PyList ["red"; "big"] ]})
    as (d' & -> & -> & _).
  - eexists. reflexivity.
  - f_equal.
Defined.

(** ** Catalog: document ids *)

Lemma for_each_app {S A} (xs ys : list A) (body : A → M S unit) (s : S) :
  for_each (xs ++ ys) body s
    = match for_each xs body s with
      | (Ok _, s') => for_each ys body s'
      | (Raise e, s') => (Raise e, s')
      end.
Proof.
  revert s. induction xs as [|x xs IH]; intros s; simpl; [done|].
  unfold mbind, M_bind. destruct (body x s) as [[[]|e] s']; [apply IH|done].
Qed.

Lemma for_each_nonint {S Doc} (body : Z → Doc → M S unit) (repr : string)
    (obj : Doc) (rest : list (Cat.pyid * Doc)) (s : S) :
  for_each ((Cat.PyOther repr, obj) :: rest)
    (λ '(docid, obj), n ← Cat.assertint docid; body n obj) s
  = (Raise (ValueError NotAnInteger), s).
Proof. reflexivity. Qed.

(** C3, as stated, fails: the bulk update [mixed_items] raises for its second
    id after the first item has been indexed, so the index is not what it
    was. *)
Lemma bulk_update_mutates_before_raising :
  Cat.updateIndex "f" mixed_items field_catalog
    = (Raise (ValueError NotAnInteger), [("f", one_index)]) ∧
  Cat.updateIndexes mixed_items field_catalog
    = (Raise (ValueError NotAnInteger), [("f", one_index)]) ∧
  [("f", one_index)] ≠ field_catalog.
Proof.
  split; [reflexivity|split; [reflexivity|]].
  intros [=].
Qed.

(** C3, amended.  A document id that is not an integer raises the
    [ValueError] for non-integer ids before its own item reaches any index:
    [index_doc] and [unindex_doc] leave the catalog as it was, and a bulk
    update stops at the first such id with exactly the state the items in
    front of it produced (the state is unchanged when there are none). *)
Theorem nonint_docid_raises_before_its_item {I Doc : Type} `{!Injection I Doc}
    (self : Cat.Catalog) (repr : string) (obj : Doc) (name : string)
    (before after : list (Cat.pyid * Doc)) :
  Cat.index_doc (Cat.PyOther repr) obj self
    = (Raise (ValueError NotAnInteger), self) ∧
  Cat.unindex_doc (Doc := Doc) (Cat.PyOther repr) self
    = (Raise (ValueError NotAnInteger), self) ∧
  Cat.updateIndex name (before ++ (Cat.PyOther repr, obj) :: after) self
    = match Cat.updateIndex name before self with
      | (Ok _, self') => (Raise (ValueError NotAnInteger), self')
      | (Raise e, self') => (Raise e, self')
      end ∧
  Cat.updateIndexes (before ++ (Cat.PyOther repr, obj) :: after) self
    = match Cat.updateIndexes before self with
      | (Ok _, self') => (Raise (ValueError NotAnInteger), self')
      | (Raise e, self') => (Raise e, self')
      end.
Proof.
  split; [done|split; [done|split]].
  - unfold Cat.updateIndex. destruct (Cat.get self name) as [index|]; [|done].
    rewrite for_each_app.
    destruct (for_each before _ index) as [[[]|e] index']; [|done].
    by rewrite for_each_nonint.
  - unfold Cat.updateIndexes. rewrite for_each_app.
    by destruct (for_each before _ self) as [[[]|e] self'].
Qed.

(** ** The sorting primitives *)

Section insort.
Context {A : Type} (lt : A → A → bool).

Lemma insort_Permutation x a : insort lt x a ≡ₚ x :: a.
Proof.
  induction a as [|y a IH]; simpl; [done|].
  destruct (lt x y); [done|]. rewrite IH. apply Permutation_swap.
Qed.

Lemma foldl_insort_Permutation l acc :
  foldl (λ acc x, insort lt x acc) acc l ≡ₚ acc ++ l.
Proof.
  revert acc. induction l as [|x l IH]; intros acc; simpl.
  - by rewrite app_nil_r.
  - rewrite IH, insort_Permutation. simpl. apply Permutation_middle.
Qed.

Lemma sorted_Permutation l : sorted lt l ≡ₚ l.
Proof. unfold sorted. by rewrite foldl_insort_Permutation. Qed.

Lemma sorted_nil_inv l : sorted lt l = [] → l = [].
Proof.
  intros H. apply Permutation_nil_r. rewrite <-H. by rewrite sorted_Permutation.
Qed.

Hypothesis lt_asym : ∀ x y, lt x y = true → lt y x = false.
Hypothesis not_gt_trans : ∀ x y z, not_gt lt x y → not_gt lt y z → not_gt lt x z.

Lemma insort_StronglySorted x a :
  StronglySorted (not_gt lt) a → StronglySorted (not_gt lt) (insort lt x a).
Proof.
  induction a as [|y a IH]; simpl; intros Ha.
  - repeat constructor.
  - apply StronglySorted_cons in Ha as [Hy Ha].
    destruct (lt x y) eqn:Hxy.
    + apply StronglySorted_cons. split; [|by apply StronglySorted_cons].
      assert (not_gt lt x y) by by apply lt_asym.
      constructor; [done|]. eapply Forall_impl; [exact Hy|].
      intros z Hz. by eapply not_gt_trans.
    + apply StronglySorted_cons. split; [|by apply IH].
      rewrite insort_Permutation. by constructor.
Qed.

Lemma sorted_StronglySorted l : StronglySorted (not_gt lt) (sorted lt l).
Proof.
  unfold sorted. assert (H : StronglySorted (not_gt lt) []) by constructor.
  revert H. generalize (@nil A) as acc.
  induction l as [|x l IH]; intros acc Hacc; simpl; [done|].
  apply IH. by apply insort_StronglySorted.
Qed.

(** Inserting something smaller than the last entry keeps the last entry
    in place. *)
Lemma insort_keeps_last x a los :
  last a = Some los → lt x los = true →
  insort lt x a = removelast (insort lt x a) ++ [los].
Proof.
  induction a as [|y a IH]; [done|]. intros Hlast Hx.
  destruct a as [|y' a].
  - simpl in Hlast. injection Hlast as ->. simpl. by rewrite Hx.
  - change (last (y :: y' :: a)) with (last (y' :: a)) in Hlast.
    specialize (IH Hlast Hx).
    cbn [insort]. destruct (lt x y).
    + change (removelast (x :: y :: y' :: a))
        with (x :: y :: removelast (y' :: a)).
      cbn [app]. do 2 f_equal.
      clear IH. revert y' Hlast. induction a as [|z a IHa]; intros y' Hlast.
      * simpl in *. by injection Hlast as ->.
      * change (removelast (y' :: z :: a)) with (y' :: removelast (z :: a)).
        cbn [app]. f_equal. by apply IHa.
    + cbn [insort] in IH |- *.
      destruct (lt x y') eqn:Hy'.
      * change (removelast (y :: x :: y' :: a))
          with (y :: removelast (x :: y' :: a)).
        cbn [app]. by f_equal.
      * destruct (insort lt x a) as [|i l] eqn:Hi.
        { pose proof (insort_Permutation x a) as Hp. rewrite Hi in Hp.
          by apply Permutation_nil_cons in Hp. }
        change (removelast (y :: y' :: i :: l))
          with (y :: removelast (y' :: i :: l)).
        cbn [app]. by f_equal.
Qed.
End insort.

(** ** Catalog: searchResults *)

Lemma foldl_weightedIntersection (rest : list (Z * gset Z)) (first : gset Z)
    (docid : Z) :
  docid ∈ foldl (λ result r, (Cat.weightedIntersection result r.2).2) first rest
  ↔ docid ∈ first ∧ ∀ r, r ∈ rest → docid ∈ r.2.
Proof.
  revert first. induction rest as [|r rest IH]; intros first; simpl.
  - split; [intros H; split; [done|]; by intros r ?%elem_of_nil|by intros [? _]].
  - rewrite IH, elem_of_intersection. split.
    + intros [[H1 H2] H3]. split; [done|].
      intros r' [->|Hr']%elem_of_cons; [done|by apply H3].
    + intros [H1 H2]. repeat split; [done|apply H2; by left|].
      intros r' Hr'. apply H2. by right.
Qed.

Section loop_over.
Implicit Types (rs : list item_result) (acc : list (Z * gset Z)).

(** The loop collects exactly when no sub-query fails or comes back empty. *)
Lemma loop_over_Collected rs acc results :
  loop_over rs acc = Cat.Collected results ↔
    (∀ r, r ∈ rs → goes_on r) ∧ results = acc ++ omap collected_pair rs.
Proof.
  revert acc. induction rs as [|r rs IH]; intros acc.
  - simpl. rewrite app_nil_r. split.
    + intros [= <-]. split; [by intros r ?%elem_of_nil|done].
    + by intros [_ ->].
  - cbn [omap list_omap]. destruct r as [e| | |s]; cbn [loop_over collected_pair].
    + split; [done|]. intros [Hall _].
      destruct (Hall (ItemFails e)) as [?|[? ?]]; [by left|done..].
    + rewrite IH. split; intros [Hall ->]; (split; [|done]).
      * intros r [->|Hr]%elem_of_cons; [by left|by apply Hall].
      * intros r Hr. apply Hall. by right.
    + split; [done|]. intros [Hall _].
      destruct (Hall ItemEmpty) as [?|[? ?]]; [by left|done..].
    + rewrite IH, <-app_assoc. split; intros [Hall ->]; (split; [|done]).
      * intros r [->|Hr]%elem_of_cons; [right; by eauto|by apply Hall].
      * intros r Hr. apply Hall. by right.
Qed.

Lemma loop_over_ShortCircuit rs acc r :
  loop_over rs acc = Cat.ShortCircuit r → r = ∅ ∧ ItemEmpty ∈ rs.
Proof.
  revert acc. induction rs as [|r' rs IH]; intros acc; [done|].
  destruct r' as [e| | |s]; cbn [loop_over]; [done|..].
  - intros [-> Hin]%IH. split; [done|by right].
  - intros [= <-]. split; [done|by left].
  - intros [-> Hin]%IH. split; [done|by right].
Qed.

Lemma loop_over_Failed rs acc e :
  loop_over rs acc = Cat.Failed e → ItemFails e ∈ rs.
Proof.
  revert acc. induction rs as [|r' rs IH]; intros acc; [done|].
  destruct r' as [e'| | |s]; cbn [loop_over]; [|..|done|].
  - intros [= ->]. by left.
  - intros Hin%IH. by right.
  - intros Hin%IH. by right.
Qed.

Lemma loop_over_empty rs acc :
  (∀ e, ItemFails e ∉ rs) → ItemEmpty ∈ rs →
  loop_over rs acc = Cat.ShortCircuit ∅.
Proof.
  revert acc. induction rs as [|r' rs IH]; intros acc Hev Hin.
  - by apply elem_of_nil in Hin.
  - assert (Hev' : ∀ e, ItemFails e ∉ rs)
      by (intros e He; apply (Hev e); by right).
    destruct r' as [e| | |s]; cbn [loop_over]; [|..|done|].
    + destruct (Hev e). by left.
    + apply IH; [done|]. by apply elem_of_cons in Hin as [?|?].
    + apply IH; [done|]. by apply elem_of_cons in Hin as [?|?].
Qed.

Lemma loop_over_no_empty rs acc :
  (∀ e, ItemFails e ∉ rs) → ItemEmpty ∉ rs →
  loop_over rs acc = Cat.Collected (acc ++ omap collected_pair rs).
Proof.
  intros Hev Hne. apply loop_over_Collected. split; [|done].
  intros r Hr. destruct r as [e| | |s];
    [by destruct (Hev e)|by left|done|right; eauto].
Qed.
End loop_over.

Section search_facts.
Context {I Q : Type} `{!IndexSearch I Q}.
Implicit Types (self : Cat.Catalog (I := I)) (query : list (string * nat))
  (heap : gmap nat Q).

Lemma apply_indexes_cons self item query acc heap :
  Cat.apply_indexes self (item :: query) acc heap
    = match apply_item self heap item with
      | (ItemFails e, heap') => (Cat.Failed e, heap')
      | (ItemSkipped, heap') => Cat.apply_indexes self query acc heap'
      | (ItemEmpty, heap') => (Cat.ShortCircuit ∅, heap')
      | (ItemSet r, heap') =>
          Cat.apply_indexes self query (acc ++ [(Z.of_nat (size r), r)]) heap'
      end.
Proof.
  destruct item as [name ref]. unfold apply_item. cbn [Cat.apply_indexes fst snd].
  destruct (Cat.get self name) as [index|]; [|done].
  destruct (heap !! ref) as [q|]; [|done].
  destruct (idx_apply index q) as [[[r|]|e] q']; cbn [classify fst snd]; [|done..].
  by destruct (decide (r = ∅)) as [->|].
Qed.

Lemma combine_results_Permutation self sort_index reverse limit
    (results1 results2 : list (Z * gset Z)) :
  results1 ≡ₚ results2 →
  Cat.combine_results self sort_index reverse limit results1
    = Cat.combine_results self sort_index reverse limit results2.
Proof.
  intros Hperm. unfold Cat.combine_results.
  pose proof (sorted_Permutation (λ a b : Z * gset Z, a.1 <? b.1) results1) as H1.
  pose proof (sorted_Permutation (λ a b : Z * gset Z, a.1 <? b.1) results2) as H2.
  assert (Hs : sorted (λ a b : Z * gset Z, a.1 <? b.1) results1
                ≡ₚ sorted (λ a b : Z * gset Z, a.1 <? b.1) results2)
    by by rewrite H1, H2.
  destruct (sorted _ results1) as [|[n1 first1] rest1];
    destruct (sorted _ results2) as [|[n2 first2] rest2].
  - done.
  - by apply Permutation_nil_cons in Hs.
  - symmetry in Hs. by apply Permutation_nil_cons in Hs.
  - assert (foldl (λ result r, (Cat.weightedIntersection result r.2).2) first1 rest1
            = foldl (λ result r, (Cat.weightedIntersection result r.2).2) first2 rest2)
      as ->; [|done].
    apply set_eq. intros docid. rewrite !foldl_weightedIntersection.
    assert (Hall : ∀ (n : Z) first rest,
              (docid ∈ first ∧ ∀ r : Z * gset Z, r ∈ rest → docid ∈ r.2)
              ↔ ∀ r : Z * gset Z, r ∈ (n, first) :: rest → docid ∈ r.2).
    { intros n first rest. split.
      - intros [Hf Hr] r [->|Hin]%elem_of_cons; [done|by apply Hr].
      - intros H. split; [apply (H (n, first)); by left|].
        intros r Hin. apply H. by right. }
    rewrite (Hall n1), (Hall n2).
    split; intros H r Hr; apply H; [by rewrite Hs|by rewrite <-Hs].
Qed.

(** What the loop comes to does not depend on the order of the outcomes it
    meets, as far as it returns; and not at all when none of them is a
    failure. *)
Lemma after_loop_Permutation self sort_index reverse limit
    (rs1 rs2 : list item_result) :
  rs1 ≡ₚ rs2 →
  (∀ v1 v2,
     Cat.after_loop self sort_index reverse limit (loop_over rs1 []) = Ok v1 →
     Cat.after_loop self sort_index reverse limit (loop_over rs2 []) = Ok v2 →
     v1 = v2) ∧
  ((∀ e, ItemFails e ∉ rs1) →
   Cat.after_loop self sort_index reverse limit (loop_over rs1 [])
     = Cat.after_loop self sort_index reverse limit (loop_over rs2 [])).
Proof.
  intros Hperm.
  assert (Hin : ∀ r, r ∈ rs1 ↔ r ∈ rs2) by (intros r; by rewrite Hperm).
  assert (Hcol : ∀ results1 results2,
            loop_over rs1 [] = Cat.Collected results1 →
            loop_over rs2 [] = Cat.Collected results2 →
            results1 ≡ₚ results2).
  { intros results1 results2 [_ ->]%loop_over_Collected
      [_ ->]%loop_over_Collected. simpl. by rewrite Hperm. }
  assert (Hmix : ∀ r rsA rsB results,
            (∀ x, x ∈ rsA ↔ x ∈ rsB) →
            loop_over rsA [] = Cat.ShortCircuit r →
            loop_over rsB [] = Cat.Collected results → False).
  { intros r rsA rsB results HAB [_ Hempty]%loop_over_ShortCircuit
      [Hall _]%loop_over_Collected.
    destruct (Hall ItemEmpty) as [?|[? ?]]; [by apply HAB|done..]. }
  split.
  - intros v1 v2.
    destruct (loop_over rs1 []) as [r1|results1|e1] eqn:H1;
      destruct (loop_over rs2 []) as [r2|results2|e2] eqn:H2;
      cbn [Cat.after_loop]; try done.
    + apply loop_over_ShortCircuit in H1 as [-> _].
      apply loop_over_ShortCircuit in H2 as [-> _]. congruence.
    + by destruct (Hmix r1 rs1 rs2 results2).
    + destruct (Hmix r2 rs2 rs1 results1); [|done..].
      intros r. by rewrite Hin.
    + rewrite (combine_results_Permutation _ _ _ _ results1 results2)
        by by apply Hcol.
      congruence.
  - intros Hev.
    assert (Hev2 : ∀ e, ItemFails e ∉ rs2)
      by (intros e He; apply (Hev e); by apply Hin).
    destruct (loop_over rs1 []) as [r1|results1|e1] eqn:H1.
    + apply loop_over_ShortCircuit in H1 as [-> Hempty].
      rewrite (loop_over_empty rs2); [done..|]. by apply Hin.
    + pose proof H1 as [Hall _]%loop_over_Collected.
      assert (Hne : ∀ rs : list item_result,
                (∀ r, r ∈ rs ↔ r ∈ rs1) → ItemEmpty ∉ rs).
      { intros rs Hrs Hempty. destruct (Hall ItemEmpty) as [?|[? ?]];
          [by apply Hrs|done..]. }
      rewrite (loop_over_no_empty rs2); [|done|].
      * cbn [Cat.after_loop]. apply combine_results_Permutation.
        eapply Hcol; [done|]. apply loop_over_no_empty; [done|].
        by apply Hne.
      * apply Hne. intros r. by rewrite Hin.
    + apply loop_over_Failed in H1. by destruct (Hev e1).
Qed.

(** When a sub-query object that two keys hold is not changed by [apply],
    each sub-query comes to what it comes to on the objects as passed. *)
Lemma apply_indexes_snapshot self heap query acc h :
  NoDup (query.*1) →
  (∀ item, item ∈ query → h !! item.2 = heap !! item.2) →
  unaliased self heap query →
  (Cat.apply_indexes self query acc h).1
    = loop_over ((λ item, (apply_item self heap item).1) <$> query) acc.
Proof.
  revert acc h.
  induction query as [|[name ref] query IH]; intros acc h Hnames Hsame Hun;
    [done|].
  apply NoDup_cons in Hnames as [Hfresh Hnames].
  assert (Hun' : unaliased self heap query).
  { intros item Hitem. destruct (Hun item) as [Hpriv|Hsame']; [by right| |by right].
    left. intros item' Hitem'. apply Hpriv. by right. }
  rewrite apply_indexes_cons. cbn [fmap list_fmap].
  pose proof (Hsame (name, ref) ltac:(by left)) as Hhead. cbn [snd] in Hhead.
  pose proof (Hun (name, ref) ltac:(by left)) as Hunhead.
  unfold apply_item in *. cbn [fst snd] in *.
  destruct (Cat.get self name) as [index|]; [|done].
  rewrite Hhead. destruct (heap !! ref) as [q|] eqn:Hq; [|done].
  cbn [fst snd] in *.
  assert (Hnext : ∀ item, item ∈ query →
            <[ref := (idx_apply index q).2]> h !! item.2 = heap !! item.2).
  { intros item Hitem. destruct (decide (item.2 = ref)) as [Href|Href].
    - rewrite Href, lookup_insert_eq.
      destruct Hunhead as [Hpriv|Hkept].
      + destruct Hfresh. rewrite <-(Hpriv item); [|by right|done].
        apply list_elem_of_fmap. by exists item.
      + apply (f_equal (λ m : gmap nat Q, m !! ref)) in Hkept.
        rewrite lookup_insert_eq in Hkept. by rewrite Hkept.
    - rewrite lookup_insert_ne by done. apply Hsame. by right. }
  destruct (classify (idx_apply index q).1) as [e| | |r]; cbn [loop_over fst];
    [done| |done|]; by apply IH.
Qed.
End search_facts.

(** C4, as stated, fails.  A sub-query with an empty result next to a key
    that names no index: the order that reaches the empty result first
    returns [(0, empty)], the other one raises.  And one dict with an
    'operator' key held by two keys: the index applied first pops the
    operator and searches with 'or', the second one finds none and searches
    with 'and'; both orders return, with different results. *)
Lemma searchResults_depends_on_order :
  query_empty_unknown ≡ₚ query_unknown_empty ∧
  (Cat.searchResults keyword_catalog None false None query_empty_unknown
     raw_heap).1 = Ok (0, Cat.ResultSet ∅) ∧
  (Cat.searchResults keyword_catalog None false None query_unknown_empty
     raw_heap).1 = Raise (ValueError (NoSuchIndex "nope")) ∧
  query_shared_XY ≡ₚ query_shared_YX ∧
  (Cat.searchResults xy_catalog None false None query_shared_XY shared_heap).1
    = Ok (0, Cat.ResultSet ∅) ∧
  (Cat.searchResults xy_catalog None false None query_shared_YX shared_heap).1
    = Ok (1, Cat.ResultSet {[1]}).
Proof.
  split; [apply Permutation_swap|]. split; [by vm_compute|].
  split; [by vm_compute|]. split; [apply Permutation_swap|].
  split; by vm_compute.
Qed.

(** C4, amended.  For every catalog state and every query mapping in which
    a sub-query object held by two keys is left unchanged by [apply]: two
    orderings of the sub-query keys that both return, return the same
    [(count, result)]; and when every sub-query names a registered index
    whose [apply] returns, all orderings have the same outcome.  (An
    ordering can raise where another one has already short-circuited on an
    empty result; and [apply] can change a shared sub-query object under the
    next index.) *)
Theorem searchResults_order_independent {I Q : Type} `{!IndexSearch I Q}
    (self : Cat.Catalog) (sort_index : option string) (reverse : bool)
    (limit : option Z) (query1 query2 : list (string * nat))
    (heap : gmap nat Q) :
  query1 ≡ₚ query2 →
  NoDup (query1.*1) →
  unaliased self heap query1 →
  (∀ v1 v2,
     (Cat.searchResults self sort_index reverse limit query1 heap).1 = Ok v1 →
     (Cat.searchResults self sort_index reverse limit query2 heap).1 = Ok v2 →
     v1 = v2) ∧
  (evaluates self heap query1 →
   (Cat.searchResults self sort_index reverse limit query1 heap).1
     = (Cat.searchResults self sort_index reverse limit query2 heap).1).
Proof.
  intros Hperm Hnames Hun.
  assert (Hnames2 : NoDup (query2.*1)) by by rewrite <-Hperm.
  assert (Hun2 : unaliased self heap query2).
  { intros item Hitem. rewrite <-Hperm in Hitem.
    destruct (Hun item Hitem) as [Hpriv|Hkept]; [left|by right].
    intros item' Hitem'. apply Hpriv. by rewrite Hperm. }
  assert (Hret : ∀ query,
            NoDup (query.*1) → unaliased self heap query →
            (Cat.searchResults self sort_index reverse limit query heap).1
              = Cat.after_loop self sort_index reverse limit
                  (loop_over ((λ item, (apply_item self heap item).1) <$> query) [])).
  { intros query Hn Hu. unfold Cat.searchResults.
    rewrite <-(apply_indexes_snapshot self heap query [] heap) by done.
    by destruct (Cat.apply_indexes self query [] heap). }
  rewrite !Hret by done.
  destruct (after_loop_Permutation self sort_index reverse limit
              ((λ item, (apply_item self heap item).1) <$> query1)
              ((λ item, (apply_item self heap item).1) <$> query2))
    as [Hboth Hall]; [by rewrite Hperm|].
  split; [done|]. intros Hev. apply Hall.
  intros e (item & He & Hitem)%list_elem_of_fmap. by destruct (Hev item Hitem e).
Qed.

Lemma searchResults_order_independent_witness :
  (Cat.searchResults keyword_catalog None false None query_AB private_heap).1
    = (Cat.searchResults keyword_catalog None false None query_BA private_heap).1 ∧
  (Cat.searchResults keyword_catalog None false None query_AB private_heap).1
    = Ok (2, Cat.ResultSet {[2; 3]}).
Proof.
  split; [|by vm_compute].
  apply (searchResults_order_independent keyword_catalog None false None
           query_AB query_BA private_heap).
  - apply Permutation_swap.
  - apply NoDup_cons. split; [|apply NoDup_singleton].
    intros Hin%list_elem_of_singleton. discriminate Hin.
  - intros item Hitem.
    apply elem_of_cons in Hitem as [->|Hitem];
      [left|apply list_elem_of_singleton in Hitem as ->; right; by vm_compute].
    intros item' Hitem' Href.
    apply elem_of_cons in Hitem' as [->|Hitem'];
      [done|apply list_elem_of_singleton in Hitem' as ->; discriminate Href].
  - intros item Hitem e.
    apply elem_of_cons in Hitem as [->|Hitem];
      [|apply list_elem_of_singleton in Hitem as ->]; by vm_compute.
Defined.

(** C8.  With a limit and without a sort index, [searchResults] returns the
    count [min(numdocs, limit)] next to the whole intersection of the
    collected results: nothing is cut off, so the result can hold more ids
    than the count says. *)
Theorem searchResults_limit_without_sort_index {I Q : Type} `{!IndexSearch I Q}
    (self : Cat.Catalog) (reverse : bool) (limit : Z)
    (query : list (string * nat)) (heap heap' : gmap nat Q)
    (results : list (Z * gset Z)) :
  Cat.apply_indexes self query [] heap = (Cat.Collected results, heap') →
  results ≠ [] →
  ∃ result,
    Cat.searchResults self None reverse (Some limit) query heap
      = (Ok (Z.min (Z.of_nat (size result)) limit, Cat.ResultSet result), heap') ∧
    (∀ docid, docid ∈ result ↔ ∀ r, r ∈ results → docid ∈ r.2) ∧
    (limit < Z.of_nat (size result) →
     Z.min (Z.of_nat (size result)) limit < Z.of_nat (size result)).
Proof.
  intros Happ Hne. unfold Cat.searchResults. rewrite Happ.
  cbn [Cat.after_loop]. unfold Cat.combine_results.
  pose proof (sorted_Permutation (λ a b : Z * gset Z, a.1 <? b.1) results) as Hs.
  destruct (sorted _ results) as [|[n first] rest].
  - destruct Hne. by apply Permutation_nil.
  - eexists. split; [done|]. split; [|lia].
    intros docid. rewrite foldl_weightedIntersection. split.
    + intros [Hf Hr] r Hin. rewrite <-Hs in Hin.
      apply elem_of_cons in Hin as [->|Hin]; [done|by apply Hr].
    + intros H. split; [apply (H (n, first)); rewrite <-Hs; by left|].
      intros r Hin. apply H. rewrite <-Hs. by right.
Qed.

Lemma searchResults_limit_without_sort_index_witness :
  ∃ result,
    Cat.searchResults keyword_catalog None false (Some 1) query_AB raw_heap
      = (Ok (Z.min (Z.of_nat (size result)) 1, Cat.ResultSet result), raw_heap) ∧
    (∀ docid, docid ∈ result ↔
       ∀ r : Z * gset Z,
         r ∈ [(3, {[1; 2; 3]}); (3, {[2; 3; 4]})] → docid ∈ r.2) ∧
    (1 < Z.of_nat (size result) →
     Z.min (Z.of_nat (size result)) 1 < Z.of_nat (size result)).
Proof.
  apply (searchResults_limit_without_sort_index keyword_catalog false 1
           query_AB raw_heap raw_heap [(3, {[1; 2; 3]}); (3, {[2; 3; 4]})]).
  - by vm_compute.
  - discriminate.
Defined.

(** Example 3 with a limit of one: the count is 1, the result holds two ids. *)
Example searchResults_count_below_size :
  (Cat.searchResults keyword_catalog None false (Some 1) query_AB raw_heap).1
    = Ok (1, Cat.ResultSet {[2; 3]}).
Proof. by vm_compute. Qed.

(** ** Field index: sort *)

Lemma iter_set_Permutation (s : gset Z) : iter_set s ≡ₚ elements s.
Proof. apply merge_sort_Permutation. Qed.

Lemma elem_of_iter_set (s : gset Z) (d : Z) : d ∈ iter_set s ↔ d ∈ s.
Proof. by rewrite iter_set_Permutation, elem_of_elements. Qed.

Lemma NoDup_iter_set (s : gset Z) : NoDup (iter_set s).
Proof. rewrite iter_set_Permutation. apply NoDup_elements. Qed.

Lemma emit_app (limit : option Z) (n : Z) (l1 l2 : list Z) :
  Field.emit limit n (l1 ++ l2)
    = let '(out1, n1, stop1) := Field.emit limit n l1 in
      if stop1 then (out1, n1, true)
      else let '(out2, n2, stop2) := Field.emit limit n1 l2 in
           (out1 ++ out2, n2, stop2).
Proof.
  revert n. induction l1 as [|d l1 IH]; intros n; simpl.
  - by destruct (Field.emit limit n l2) as [[out2 n2] stop2].
  - destruct (Field.limit_reached limit n); [done|].
    rewrite IH. destruct (Field.emit limit (n + 1) l1) as [[out1 n1] stop1].
    destruct stop1; [done|].
    by destruct (Field.emit limit n1 l2) as [[out2 n2] stop2].
Qed.

Lemma emit_Some (k n : Z) (l : list Z) :
  1 ≤ k → (Field.emit (Some k) n l).1.1 = take (Z.to_nat (k - n)) l.
Proof.
  intros Hk. revert n. induction l as [|d l IH]; intros n; simpl.
  - by rewrite take_nil.
  - destruct (k =? 0) eqn:Hk0; [lia|]. simpl.
    destruct (k <=? n) eqn:Hkn; simpl.
    + replace (Z.to_nat (k - n)) with 0%nat by lia. done.
    + specialize (IH (n + 1)).
      destruct (Field.emit (Some k) (n + 1) l) as [[out n'] stop]. simpl in *.
      replace (Z.to_nat (k - n)) with (S (Z.to_nat (k - (n + 1)))) by lia.
      simpl. by f_equal.
Qed.

Lemma emit_None (n : Z) (l : list Z) : (Field.emit None n l).1.1 = l.
Proof.
  revert n. induction l as [|d l IH]; intros n; simpl; [done|].
  specialize (IH (n + 1)).
  destruct (Field.emit None (n + 1) l) as [[out n'] stop]. simpl in *.
  by f_equal.
Qed.

Lemma emit_truncate (limit : option Z) (l : list Z) :
  valid_limit limit → (Field.emit limit 0 l).1.1 = truncate limit l.
Proof.
  intros Hlimit. destruct limit as [k|]; simpl.
  - rewrite emit_Some by by apply Hlimit. by rewrite Z.sub_0_r.
  - apply emit_None.
Qed.

(** The comparisons are strict weak orders. *)
Lemma key_lt_asym a b : key_lt a b = true → key_lt b a = false.
Proof. destruct a, b; simpl; try done. lia. Qed.

Lemma key_lt_not_gt_trans a b c :
  key_lt b a = false → key_lt c b = false → key_lt c a = false.
Proof. destruct a, b, c; simpl; try done. lia. Qed.

Lemma pair_lt_asym a b : pair_lt a b = true → pair_lt b a = false.
Proof. unfold pair_lt. destruct a, b; simpl. lia. Qed.

Lemma pair_lt_not_gt_trans a b c :
  pair_lt b a = false → pair_lt c b = false → pair_lt c a = false.
Proof. unfold pair_lt. destruct a, b, c; simpl. lia. Qed.

Lemma StronglySorted_impl_elem_of {A} (R R' : relation A) (l : list A) :
  (∀ x y, x ∈ l → y ∈ l → R x y → R' x y) →
  StronglySorted R l → StronglySorted R' l.
Proof.
  induction l as [|x l IH]; intros Himpl Hl; [constructor|].
  apply StronglySorted_cons in Hl as [Hx Hl]. apply StronglySorted_cons. split.
  - apply Forall_forall. intros y Hy. apply Himpl; [by left|by right|].
    by eapply Forall_forall in Hx.
  - apply IH; [|done]. intros y z Hy Hz. apply Himpl; by right.
Qed.

Lemma StronglySorted_filter {A} (R : relation A) (P : A → Prop)
    `{∀ x, Decision (P x)} (l : list A) :
  StronglySorted R l → StronglySorted R (filter P l).
Proof.
  induction l as [|x l IH]; intros Hl; [constructor|].
  apply StronglySorted_cons in Hl as [Hx Hl].
  rewrite filter_cons. destruct (decide (P x)); [|by apply IH].
  apply StronglySorted_cons. split; [|by apply IH].
  apply Forall_forall. intros y [_ Hy]%list_elem_of_filter.
  by eapply Forall_forall in Hx.
Qed.

(** The full sort. *)
Lemma sort_full_answer (rev_index : gmap Z Z) (docids : gset Z)
    (reverse : bool) (limit : option Z) :
  valid_limit limit →
  ∃ out, Field.sort_full rev_index (iter_set docids) reverse limit
           = Field.gen_docids out ∧
         sort_answer rev_index docids reverse limit out.
Proof.
  intros Hlimit. unfold Field.sort_full. eexists. split; [done|].
  rewrite emit_truncate by done. eexists. split; [|split; [|done]].
  - unfold sorted_by. by rewrite sorted_Permutation, iter_set_Permutation.
  - apply StronglySorted_Sorted. unfold sorted_by.
    set (lt := λ x y : Z, if reverse then key_lt (rev_index !! y) (rev_index !! x)
                          else key_lt (rev_index !! x) (rev_index !! y)).
    apply (StronglySorted_impl_elem_of (not_gt lt)).
    + intros x y [[vx Hx] _]%list_elem_of_filter [[vy Hy] _]%list_elem_of_filter.
      unfold not_gt, lt, value_order. rewrite Hx, Hy.
      destruct reverse; simpl; lia.
    + apply StronglySorted_filter, sorted_StronglySorted.
      * intros x y. unfold lt. destruct reverse; apply key_lt_asym.
      * intros x y z. unfold not_gt, lt.
        destruct reverse; eauto using key_lt_not_gt_trans.
Qed.

(** The lazy walk. *)
Lemma sort_lazy_loop_flat (docids : gset Z) (limit : option Z) (n : Z)
    (items : list (Z * gset Z)) :
  Field.sort_lazy_loop docids limit n (items.*2)
    = (Field.emit limit n (lazy_walk docids items)).1.1.
Proof.
  revert n. induction items as [|[v b] items IH]; intros n; [done|].
  unfold lazy_walk. cbn [fmap list_fmap map concat snd Field.sort_lazy_loop].
  rewrite emit_app.
  destruct (Field.emit limit n (iter_set (docids ∩ b))) as [[out1 n1] stop1].
  destruct stop1; [done|]. rewrite IH. unfold lazy_walk.
  by destruct (Field.emit limit n1 _) as [[out2 n2] stop2].
Qed.

Lemma elem_of_lazy_walk (docids : gset Z) (items : list (Z * gset Z)) (d : Z) :
  d ∈ lazy_walk docids items ↔
  d ∈ docids ∧ ∃ v b, (v, b) ∈ items ∧ d ∈ b.
Proof.
  unfold lazy_walk. induction items as [|[v b] items IH]; simpl.
  - split; [by intros ?%elem_of_nil|]. by intros (_ & ? & ? & ?%elem_of_nil & _).
  - rewrite elem_of_app, IH, elem_of_iter_set, elem_of_intersection. split.
    + intros [[Hd Hb]|[Hd (v' & b' & Hin & Hb)]].
      * split; [done|]. exists v, b. split; [by left|done].
      * split; [done|]. exists v', b'. split; [by right|done].
    + intros [Hd (v' & b' & [[= -> ->]|Hin]%elem_of_cons & Hb)].
      * by left.
      * right. eauto.
Qed.

Section lazy_walk.
Context (rev_index : gmap Z Z) (docids : gset Z).
Implicit Types items : list (Z * gset Z).

Lemma lazy_walk_sorted items :
  (∀ v b d, (v, b) ∈ items → d ∈ b → rev_index !! d = Some v) →
  StronglySorted key_le items →
  NoDup (items.*1) →
  StronglySorted (value_order rev_index false) (lazy_walk docids items) ∧
  NoDup (lazy_walk docids items).
Proof.
  induction items as [|[v b] items IH]; intros Hval Hsorted Hnodup.
  - split; constructor.
  - apply StronglySorted_cons in Hsorted as [Hv Hsorted].
    apply NoDup_cons in Hnodup as [Hfresh Hnodup].
    destruct IH as [IHs IHn]; [|done..|].
    { intros v' b' d Hin. apply Hval. by right. }
    assert (Hseg : ∀ d, d ∈ iter_set (docids ∩ b) → rev_index !! d = Some v).
    { intros d [_ Hd]%elem_of_iter_set%elem_of_intersection.
      eapply Hval; [by left|done]. }
    assert (Hrest : ∀ d, d ∈ lazy_walk docids items →
              ∃ v', rev_index !! d = Some v' ∧ v ≤ v' ∧ v' ∈ items.*1).
    { intros d (_ & v' & b' & Hin & Hd)%elem_of_lazy_walk. exists v'.
      split; [eapply Hval; [by right|done]|]. split.
      - eapply Forall_forall in Hv; [|done]. exact Hv.
      - apply list_elem_of_fmap. by exists (v', b'). }
    change (lazy_walk docids ((v, b) :: items))
      with (iter_set (docids ∩ b) ++ lazy_walk docids items).
    split.
    + apply StronglySorted_app. split; [|split; [|done]].
      * intros x1 x2 Hx1%Hseg (v' & Hx2 & Hle & _)%Hrest.
        unfold value_order. by rewrite Hx1, Hx2.
      * generalize (iter_set (docids ∩ b)) Hseg. clear.
        induction l as [|x l IH]; intros Hseg; [constructor|].
        apply StronglySorted_cons. split.
        -- apply Forall_forall. intros y Hy. unfold value_order.
           rewrite (Hseg x), (Hseg y) by (by left || by right). lia.
        -- apply IH. intros d Hd. apply Hseg. by right.
    + apply NoDup_app. split; [apply NoDup_iter_set|split; [|done]].
      intros x Hx1%Hseg (v' & Hx2 & _ & Hin)%Hrest.
      assert (v' = v) as -> by congruence. by apply Hfresh.
Qed.
End lazy_walk.

Global Instance key_le_trans {B} : Transitive (@key_le B).
Proof. intros x y z. unfold key_le. lia. Qed.
Global Instance key_le_total {B} : Total (@key_le B).
Proof. intros x y. unfold key_le. lia. Qed.

Lemma elem_of_btree_items {B} (m : gmap Z B) (v : Z) (b : B) :
  (v, b) ∈ btree_items m ↔ m !! v = Some b.
Proof.
  unfold btree_items. by rewrite merge_sort_Permutation, elem_of_map_to_list.
Qed.

Lemma sort_lazy_answer (self : Field.CatalogFieldIndex) (docids : gset Z)
    (limit : option Z) :
  well_formed self → valid_limit limit →
  ∃ out, Field.sort_lazy (Field._fwd_index self) docids limit
           = Field.gen_docids out ∧
         sort_answer (Field._rev_index self) docids false limit out.
Proof.
  intros [[Hfwd _] Hback] Hlimit. unfold Field.sort_lazy, btree_values.
  eexists. split; [done|]. rewrite sort_lazy_loop_flat, emit_truncate by done.
  destruct (lazy_walk_sorted (Field._rev_index self) docids
              (btree_items (Field._fwd_index self))) as [Hsorted Hnodup].
  { intros v b d Hin%elem_of_btree_items. by apply Hback. }
  { apply StronglySorted_merge_sort; apply _. }
  { unfold btree_items. rewrite merge_sort_Permutation.
    apply NoDup_fst_map_to_list. }
  eexists. split; [|split; [by apply StronglySorted_Sorted|done]].
  apply NoDup_Permutation; [done|apply NoDup_filter, NoDup_elements|].
  intros d. rewrite elem_of_lazy_walk, list_elem_of_filter, elem_of_elements.
  split.
  - intros (Hd & v & b & Hin%elem_of_btree_items & Hb). split; [|done].
    exists v. by eapply Hback.
  - intros [[v Hv] Hd]. split; [done|].
    destruct (Hfwd d v Hv) as (b & Hb & Hin). exists v, b.
    split; [by apply elem_of_btree_items|done].
Qed.

(** The n-best sort. *)
Lemma nsort_snd (rev_index : gmap Z Z) (docids : list Z) :
  (Field.nsort rev_index docids).*2
    = filter (λ docid, is_Some (rev_index !! docid)) docids.
Proof.
  unfold Field.nsort. induction docids as [|d docids IH]; [done|].
  cbn [omap list_omap]. rewrite filter_cons.
  destruct (decide (is_Some (rev_index !! d))) as [[v Hv]|Hn].
  - rewrite Hv. cbn [fmap option_fmap option_map list_fmap snd]. f_equal.
    exact IH.
  - destruct (rev_index !! d) as [v|]; [by destruct Hn|exact IH].
Qed.

Lemma elem_of_nsort (rev_index : gmap Z Z) (docids : list Z) (v d : Z) :
  (v, d) ∈ Field.nsort rev_index docids → rev_index !! d = Some v.
Proof.
  unfold Field.nsort. intros (d' & _ & Hd)%list_elem_of_omap.
  destruct (rev_index !! d') as [v'|] eqn:Hv; [|done].
  simpl in Hd. by injection Hd as <- <-.
Qed.

Lemma pair_lt_irrefl a : pair_lt a a = false.
Proof. unfold pair_lt. destruct a; simpl. lia. Qed.

Lemma pairs_sorted_values (rev_index : gmap Z Z) (reverse : bool)
    (pairs : list (Z * Z)) :
  (∀ v d, (v, d) ∈ pairs → rev_index !! d = Some v) →
  StronglySorted
    (not_gt (λ x y, if reverse then pair_lt y x else pair_lt x y)) pairs →
  StronglySorted (value_order rev_index reverse) (pairs.*2).
Proof.
  induction pairs as [|[v d] pairs IH]; intros Hval Hsorted; [constructor|].
  apply StronglySorted_cons in Hsorted as [Hhd Hsorted].
  cbn [fmap list_fmap snd]. apply StronglySorted_cons. split.
  - apply Forall_forall. intros d' ([v' d''] & -> & Hin)%list_elem_of_fmap.
    eapply Forall_forall in Hhd; [|done].
    unfold value_order. cbn [snd].
    rewrite (Hval v d), (Hval v' d'') by (by left || by right).
    revert Hhd. unfold not_gt, pair_lt. simpl. destruct reverse; lia.
  - apply IH; [|done]. intros v' d' Hin. apply Hval. by right.
Qed.

Lemma StronglySorted_last_max (result : list (Z * Z)) (los x : Z * Z) :
  StronglySorted (not_gt pair_lt) result → last result = Some los →
  x ∈ result → not_gt pair_lt x los.
Proof.
  intros Hsorted [front ->]%last_Some [Hx|Hx%list_elem_of_singleton]%elem_of_app.
  - apply StronglySorted_app in Hsorted as (Hle & _ & _).
    apply Hle; [done|by apply list_elem_of_singleton].
  - subst x. apply pair_lt_irrefl.
Qed.

Lemma nsmallest_loop_spec (it result others : list (Z * Z)) (los : Z * Z) :
  StronglySorted (not_gt pair_lt) result →
  last result = Some los →
  (∀ x y, x ∈ result → y ∈ others → not_gt pair_lt x y) →
  ∃ R others',
    Field.nsmallest_loop result los it = Ok R ∧
    StronglySorted (not_gt pair_lt) R ∧
    length R = length result ∧
    R ++ others' ≡ₚ result ++ others ++ it ∧
    (∀ x y, x ∈ R → y ∈ others' → not_gt pair_lt x y).
Proof.
  revert result others los.
  induction it as [|elem it IH]; intros result others los Hsorted Hlast Hle.
  - exists result, others. by rewrite app_nil_r.
  - cbn [Field.nsmallest_loop]. unfold pair_le.
    destruct (pair_lt elem los) eqn:Hlt; cbn [negb].
    + (* [elem] is smaller than the largest kept pair *)
      pose proof (insort_keeps_last pair_lt elem result los Hlast Hlt) as Hins.
      pose proof (insort_Permutation pair_lt elem result) as Hperm.
      pose proof (insort_StronglySorted pair_lt pair_lt_asym
                    pair_lt_not_gt_trans elem result Hsorted) as Hsorted'.
      set (result' := removelast (insort pair_lt elem result)) in *.
      rewrite Hins in Hsorted'.
      apply StronglySorted_app in Hsorted' as (Hmax & Hsorted' & _).
      assert (Hlen : length result' = length result).
      { apply Permutation_length in Hperm. rewrite Hins in Hperm.
        rewrite length_app in Hperm. simpl in Hperm. lia. }
      destruct (last result') as [los'|] eqn:Hlast'.
      2: { apply last_None in Hlast'. rewrite Hlast' in Hlen.
           apply last_Some in Hlast as [front ->].
           rewrite length_app in Hlen. simpl in Hlen. lia. }
      destruct (IH result' (los :: others) los') as (R & others' & HR & HS & HL & HP & HM);
        [done..| |].
      { intros x y Hx [->|Hy]%elem_of_cons.
        - apply Hmax; [done|by apply list_elem_of_singleton].
        - assert (Hx' : x ∈ elem :: result).
          { rewrite <-Hperm, Hins. apply elem_of_app. by left. }
          apply elem_of_cons in Hx' as [->|Hx']; [|by apply Hle].
          apply pair_lt_not_gt_trans with los.
          + by apply pair_lt_asym.
          + apply Hle; [by apply last_Some_elem_of|done]. }
      exists R, others'. split; [done|]. split; [done|]. split; [lia|].
      split; [|done]. rewrite HP.
      change (result' ++ (los :: others) ++ it)
        with (result' ++ [los] ++ others ++ it).
      rewrite (assoc_L (++) result' [los]), <-Hins, Hperm. simpl.
      by rewrite !Permutation_middle.
    + (* [los <= elem]: continue *)
      destruct (IH result (elem :: others) los) as (R & others' & HR & HS & HL & HP & HM);
        [done..| |].
      { intros x y Hx [->|Hy]%elem_of_cons; [|by apply Hle].
        apply pair_lt_not_gt_trans with los; [|done].
        by apply StronglySorted_last_max with result. }
      exists R, others'. split; [done|]. split; [done|]. split; [done|].
      split; [|done]. rewrite HP. simpl. by rewrite !Permutation_middle.
Qed.

Lemma sort_nbest_answer (rev_index : gmap Z Z) (docids : gset Z)
    (reverse : bool) (limit : option Z) :
  valid_limit limit →
  (if reverse then is_Some limit
   else ∃ docid, docid ∈ docids ∧ is_Some (rev_index !! docid)) →
  ∃ out, Field.sort_nbest rev_index (iter_set docids) reverse limit
           = Field.gen_docids out ∧
         sort_answer rev_index docids reverse limit out.
Proof.
  intros Hlimit Hdef. unfold Field.sort_nbest.
  set (pairs := Field.nsort rev_index (iter_set docids)).
  assert (Hsnd : pairs.*2 ≡ₚ filter (λ docid, is_Some (rev_index !! docid))
                              (elements docids)).
  { unfold pairs. by rewrite nsort_snd, iter_set_Permutation. }
  assert (Hval : ∀ v d, (v, d) ∈ pairs → rev_index !! d = Some v).
  { intros v d. apply elem_of_nsort. }
  destruct reverse.
  - (* heapq.nlargest *)
    destruct Hdef as [k ->]. cbn [heapq_nlargest].
    eexists. split; [done|].
    exists ((sorted (λ x y, pair_lt y x) pairs).*2). split; [|split].
    + by rewrite sorted_Permutation.
    + apply StronglySorted_Sorted, (pairs_sorted_values rev_index true).
      * intros v d Hin. apply Hval. by rewrite sorted_Permutation in Hin.
      * apply sorted_StronglySorted.
        -- intros x y. apply pair_lt_asym.
        -- intros x y z Hxy Hyz. unfold not_gt in *.
           eauto using pair_lt_not_gt_trans.
    + cbn [truncate]. by rewrite fmap_take.
  - (* "lifted from heapq.nsmallest" *)
    destruct Hdef as (d0 & Hd0 & [v0 Hv0]).
    assert (Hne : pairs ≠ []).
    { intros Hnil.
      assert (Hin : d0 ∈ filter (λ docid, is_Some (rev_index !! docid))
                          (elements docids)).
      { apply list_elem_of_filter. split; [by eauto|by apply elem_of_elements]. }
      rewrite <-Hsnd, Hnil in Hin. by apply elem_of_nil in Hin. }
    destruct (islice pairs limit) as [head it] eqn:Hslice.
    assert (Hsplit : head ++ it = pairs ∧ head ≠ [] ∧
                     (limit = None → it = []) ∧
                     (∀ k, limit = Some k →
                        length head = (Z.to_nat k `min` length pairs)%nat)).
    { unfold islice in Hslice. destruct limit as [k|].
      - injection Hslice as <- <-. split; [apply take_drop|].
        split; [|split; [done|]].
        + specialize (Hlimit k eq_refl). destruct pairs; [done|].
          replace (Z.to_nat k) with (S (Z.to_nat (k - 1))) by lia. done.
        + intros ? [= <-]. apply length_take.
      - injection Hslice as <- <-. rewrite app_nil_r. repeat split; [done..|].
        by intros. }
    destruct Hsplit as (Hpairs & Hhead & HNone & HSome).
    pose proof (sorted_Permutation pair_lt head) as Hperm0.
    pose proof (sorted_StronglySorted pair_lt pair_lt_asym
                  pair_lt_not_gt_trans head) as Hsorted0.
    destruct (last (sorted pair_lt head)) as [los|] eqn:Hlast.
    2: { apply last_None, sorted_nil_inv in Hlast. done. }
    destruct (nsmallest_loop_spec it (sorted pair_lt head) [] los)
      as (R & others & -> & HS & HL & HP & HM); [done..| |].
    { intros x y _ Hy. by apply elem_of_nil in Hy. }
    rewrite Hperm0 in HP. simpl in HP. rewrite Hpairs in HP.
    apply Permutation_length in Hperm0. rewrite Hperm0 in HL.
    eexists. split; [done|].
    exists ((R ++ sorted pair_lt others).*2). split; [|split].
    + by rewrite sorted_Permutation, HP.
    + apply StronglySorted_Sorted, (pairs_sorted_values rev_index false).
      * intros v d Hin. apply Hval.
        by rewrite sorted_Permutation, HP in Hin.
      * apply StronglySorted_app. split; [|split; [done|]].
        -- intros x y Hx Hy. apply HM; [done|].
           by rewrite sorted_Permutation in Hy.
        -- apply sorted_StronglySorted;
             [apply pair_lt_asym|apply pair_lt_not_gt_trans].
    + pose proof (Permutation_length HP) as Hlen. rewrite length_app in Hlen.
      assert (Hall : length R = length pairs → R.*2 = (R ++ sorted pair_lt others).*2).
      { intros Heq. assert (others = []) as ->; [|by rewrite app_nil_r].
        apply nil_length_inv. lia. }
      destruct limit as [k|]; cbn [truncate].
      * specialize (HSome k eq_refl).
        destruct (decide (length R = Z.to_nat k)) as [Hk|Hk].
        -- rewrite fmap_app, take_app_length'; [done|].
           by rewrite length_fmap.
        -- rewrite <-Hall by lia. rewrite take_ge; [done|].
           rewrite length_fmap. lia.
      * apply Hall. rewrite HL, <-Hpairs, HNone by done. by rewrite app_nil_r.
Qed.

(** A limit below one raises in every strategy, before any is selected. *)
Lemma sort_limit_too_small (self : Field.CatalogFieldIndex) (docids : gset Z)
    (reverse : bool) (l : Z) :
  l < 1 →
  Field.sort self docids reverse (Some l)
    = {| Field.yields := []; Field.ending := Field.Raised (ValueError LimitTooSmall) |}.
Proof. intros Hl. unfold Field.sort. by rewrite (proj2 (Z.ltb_lt l 1)). Qed.

(** C1, as stated, fails: for one index, one candidate set and one limit,
    the forced n-best strategy and the full sort disagree.  No candidate has
    a reverse entry; the full sort emits nothing, the n-best branch emits the
    class [StopIteration] and then raises [IndexError]. *)
Lemma sort_depends_on_strategy :
  Field.sort one_index {[2]} false (Some 1) = Field.gen_docids [] ∧
  Field.sort (force_lazy one_index) {[2]} false (Some 1) = Field.gen_docids [] ∧
  Field.sort (force_nbest one_index) {[2]} false (Some 1)
    = {| Field.yields := [Field.StopIterationClass];
         Field.ending := Field.Raised IndexError |} ∧
  Field.sort (force_nbest one_index) {[1]} true None
    = {| Field.yields := []; Field.ending := Field.Raised TypeError |} ∧
  Field.sort one_index {[1]} true None = Field.gen_docids [1].
Proof. repeat split; vm_compute; reflexivity. Qed.

(** Under the invariant, an accepted limit and a well-defined n-best branch,
    [sort] is exhausted after emitting an answer to the request, whatever
    strategy the state selects. *)
Lemma sort_emits_answer (self : Field.CatalogFieldIndex)
    (docids : gset Z) (reverse : bool) (limit : option Z) :
  well_formed self →
  valid_limit limit →
  nbest_defined self docids reverse limit →
  ∃ out, Field.sort self docids reverse limit = Field.gen_docids out ∧
         sort_answer (Field._rev_index self) docids reverse limit out.
Proof.
  intros Hwf Hlimit Hnbest. unfold Field.sort.
  assert (match limit with Some l => l <? 1 | None => false end = false) as ->.
  { destruct limit as [l|]; [|done]. specialize (Hlimit l eq_refl). lia. }
  assert (Hnothing : (∀ d, d ∈ docids → Field._rev_index self !! d = None) →
            sort_answer (Field._rev_index self) docids reverse limit []).
  { intros Hnone. exists []. split; [|split; [apply Sorted_nil|]].
    2: { destruct limit; simpl; by rewrite ?take_nil. }
    symmetry. apply Permutation_nil_r, elem_of_nil_inv.
    intros d [[v Hv] Hd%elem_of_elements]%list_elem_of_filter.
    by rewrite Hnone in Hv. }
  destruct (decide (docids = ∅)) as [->|Hdocids].
  { exists []. split; [done|]. apply Hnothing. by intros d ?%not_elem_of_empty. }
  destruct (Field._num_docs self =? 0) eqn:Hnum.
  { exists []. split; [done|]. apply Hnothing. intros d _.
    destruct Hwf as [[_ Hcount] _].
    assert (Hz : Field._rev_index self = ∅).
    { apply map_size_empty_iff. lia. }
    by rewrite Hz, lookup_empty. }
  unfold nbest_defined in Hnbest.
  destruct (Field.select_strategy self (Z.of_nat (size docids)) reverse limit)
    eqn:Hstrategy.
  - apply sort_nbest_answer; [done|by apply Hnbest].
  - assert (reverse = false) as ->.
    { unfold Field.select_strategy in Hstrategy.
      destruct reverse; [|done]. rewrite andb_false_r in Hstrategy.
      by destruct (_ || Field.use_nbest self). }
    by apply sort_lazy_answer.
  - by apply sort_full_answer.
Qed.

(** Nine candidates under a limit of two are sorted by the n-best branch. *)
Example sort_nbest_selected :
  Field.select_strategy abc_index 9 false (Some 2) = Field.NBest ∧
  Field.sort abc_index {[1; 2; 3; 4; 5; 6; 7; 8; 9]} false (Some 2)
    = Field.gen_docids [2; 1].
Proof. split; vm_compute; reflexivity. Qed.

(** Example 1 of the specification. *)
Example sort_example_1 :
  Field.sort abc_index {[1; 2; 3]} false None = Field.gen_docids [2; 1; 3] ∧
  Field.sort abc_index {[1; 2; 3]} true None = Field.gen_docids [3; 1; 2] ∧
  Field.sort abc_index {[1; 2; 3]} false (Some 1) = Field.gen_docids [2] ∧
  Field.sort abc_index {[1; 2; 3]} true (Some 1) = Field.gen_docids [3].
Proof. repeat split; vm_compute; reflexivity. Qed.

(** Example 2 of the specification. *)
Example search_example_2 :
  Keyword.search red_big_index (Keyword.PyList ["red"; "big"]) (Keyword.PyStr "and")
    = Ok {[1]} ∧
  Keyword.search red_big_index (Keyword.PyList ["red"]) (Keyword.PyStr "or")
    = Ok {[1; 2]}.
Proof. split; vm_compute; reflexivity. Qed.

Global Instance looked_up_order_trans reverse : Transitive (looked_up_order reverse).
Proof.
  intros [x|] [y|] [z|]; unfold looked_up_order; try done.
  destruct reverse; lia.
Qed.
Global Instance looked_up_order_antisym reverse :
  AntiSymm (=) (looked_up_order reverse).
Proof.
  intros [x|] [y|]; unfold looked_up_order; try done.
  intros H1 H2. f_equal. destruct reverse; lia.
Qed.

(** Two answers to one request show the same sequence of values: they differ
    in the order of ids with equal values at most. *)
Lemma sort_answer_same_values (rev_index : gmap Z Z) (docids : gset Z)
    (reverse : bool) (limit : option Z) (out1 out2 : list Z) :
  sort_answer rev_index docids reverse limit out1 →
  sort_answer rev_index docids reverse limit out2 →
  (λ d, rev_index !! d) <$> out1 = (λ d, rev_index !! d) <$> out2.
Proof.
  intros (l1 & Hp1 & Hs1 & ->) (l2 & Hp2 & Hs2 & ->).
  assert (Heq : (λ d, rev_index !! d) <$> l1 = (λ d, rev_index !! d) <$> l2).
  { apply (Sorted_unique (looked_up_order reverse)).
    - by apply (Sorted_fmap _ (value_order rev_index reverse)).
    - by apply (Sorted_fmap _ (value_order rev_index reverse)).
    - by rewrite Hp1, Hp2. }
  destruct limit as [k|]; simpl; [|done]. by rewrite !fmap_take, Heq.
Qed.

(** C1, amended.  Take an index state that satisfies the data-model
    invariant and a second state with the same stores and any other values
    of the [use_lazy] and [use_nbest] overrides, a candidate id set, a
    reverse flag and a limit that [sort] accepts.  Whenever the n-best
    branch, where selected, has a limit in the reversed case and a candidate
    with a reverse entry in the ascending case, both generators are
    exhausted after emitting an answer to the request (the candidate ids
    that have a reverse entry, sorted by indexed value with ties in some
    order, truncated to the limit), and the two emitted sequences show the
    same values position by position. *)
Theorem sort_strategy_independent (self1 self2 : Field.CatalogFieldIndex)
    (docids : gset Z) (reverse : bool) (limit : option Z) :
  well_formed self1 → same_store self1 self2 → valid_limit limit →
  nbest_defined self1 docids reverse limit →
  nbest_defined self2 docids reverse limit →
  ∃ out1 out2,
    Field.sort self1 docids reverse limit = Field.gen_docids out1 ∧
    Field.sort self2 docids reverse limit = Field.gen_docids out2 ∧
    sort_answer (Field._rev_index self1) docids reverse limit out1 ∧
    sort_answer (Field._rev_index self1) docids reverse limit out2 ∧
    (λ d, Field._rev_index self1 !! d) <$> out1
      = (λ d, Field._rev_index self1 !! d) <$> out2.
Proof.
  intros Hwf (Hfwd & Hrev & Hnum) Hlimit Hn1 Hn2.
  assert (Hwf2 : well_formed self2).
  { destruct Hwf as [[H1 H2] H3]. unfold well_formed, consistent.
    rewrite <-Hfwd, <-Hrev, <-Hnum. done. }
  destruct (sort_emits_answer self1 docids reverse limit)
    as (out1 & Hs1 & Ha1); [done..|].
  destruct (sort_emits_answer self2 docids reverse limit)
    as (out2 & Hs2 & Ha2); [done..|].
  rewrite <-Hrev in Ha2.
  exists out1, out2. repeat (split; [done|]).
  by eapply sort_answer_same_values.
Qed.

Lemma sort_strategy_independent_witness :
  ∃ out1 out2,
    Field.sort abc_index {[1; 2; 3]} false (Some 2) = Field.gen_docids out1 ∧
    Field.sort (force_nbest abc_index) {[1; 2; 3]} false (Some 2)
      = Field.gen_docids out2 ∧
    sort_answer (Field._rev_index abc_index) {[1; 2; 3]} false (Some 2) out1 ∧
    sort_answer (Field._rev_index abc_index) {[1; 2; 3]} false (Some 2) out2 ∧
    (λ d, Field._rev_index abc_index !! d) <$> out1
      = (λ d, Field._rev_index abc_index !! d) <$> out2.
Proof.
  apply (sort_strategy_independent abc_index (force_nbest abc_index)
           {[1; 2; 3]} false (Some 2)).
  - apply (well_formed_run_calls (AttrName "f") abc_calls).
  - repeat split.
  - intros l [= <-]. lia.
  - intros Hsel. vm_compute in Hsel. discriminate Hsel.
  - intros _. exists 1. split; [by vm_compute|]. exists 20. reflexivity.
Defined.

(** The two strategies of the witness: the full sort and the forced n-best
    branch. *)
Example sort_witness_strategies :
  Field.select_strategy abc_index 3 false (Some 2) = Field.FullSort ∧
  Field.select_strategy (force_nbest abc_index) 3 false (Some 2) = Field.NBest ∧
  Field.sort abc_index {[1; 2; 3]} false (Some 2) = Field.gen_docids [2; 1] ∧
  Field.sort (force_nbest abc_index) {[1; 2; 3]} false (Some 2)
    = Field.gen_docids [2; 1].
Proof. repeat split; vm_compute; reflexivity. Qed.

(** C2.  The claim that [sort] emits nothing but document ids with a reverse
    entry fails in the ascending n-best branch when no candidate has one:
    with the index holding only id 1 and the candidates 2 to 6 under a limit
    of one, the generator yields the class [StopIteration] and then raises
    [IndexError] at [result[-1]]. *)
Theorem sort_nbest_yields_StopIteration :
  Field.select_strategy one_index 5 false (Some 1) = Field.NBest ∧
  Field.sort one_index {[2; 3; 4; 5; 6]} false (Some 1)
    = {| Field.yields := [Field.StopIterationClass];
         Field.ending := Field.Raised IndexError |}.
Proof. split; vm_compute; reflexivity. Qed.

(** * Further properties *)

(** ** Sort: what every strategy respects, in every state *)

Lemma emit_subseteq (limit : option Z) (n : Z) (l : list Z) (d : Z) :
  d ∈ (Field.emit limit n l).1.1 → d ∈ l.
Proof.
  revert n. induction l as [|x l IH]; intros n; simpl; [done|].
  destruct (Field.limit_reached limit n); [by intros ?%elem_of_nil|].
  specialize (IH (n + 1)).
  destruct (Field.emit limit (n + 1) l) as [[out n'] stop]. simpl in *.
  intros [->|Hd]%elem_of_cons; [by left|right; by apply IH].
Qed.

Lemma elem_of_nsort_inv (rev_index : gmap Z Z) (docids : list Z) (v d : Z) :
  (v, d) ∈ Field.nsort rev_index docids ↔ d ∈ docids ∧ rev_index !! d = Some v.
Proof.
  unfold Field.nsort. rewrite list_elem_of_omap. split.
  - intros (d' & Hin & Hd). destruct (rev_index !! d') as [v'|] eqn:Hv; [|done].
    simpl in Hd. injection Hd as <- <-. done.
  - intros [Hin Hv]. exists d. split; [done|]. by rewrite Hv.
Qed.

(** The pairs the ascending n-best branch ends with, whatever the index. *)
Lemma sort_nbest_ascending_result (rev_index : gmap Z Z) (docids : list Z)
    (limit : option Z) (head it : list (Z * Z)) (los : Z * Z) :
  islice (Field.nsort rev_index docids) limit = (head, it) →
  last (sorted pair_lt head) = Some los →
  ∃ R others,
    Field.nsmallest_loop (sorted pair_lt head) los it = Ok R ∧
    StronglySorted (not_gt pair_lt) R ∧
    length R = length head ∧
    R ++ others ≡ₚ Field.nsort rev_index docids ∧
    (∀ x y, x ∈ R → y ∈ others → not_gt pair_lt x y).
Proof.
  intros Hslice Hlast.
  assert (Hpairs : head ++ it = Field.nsort rev_index docids).
  { unfold islice in Hslice. destruct limit as [k|]; injection Hslice as <- <-.
    - apply take_drop.
    - apply app_nil_r. }
  pose proof (sorted_Permutation pair_lt head) as Hperm0.
  destruct (nsmallest_loop_spec it (sorted pair_lt head) [] los)
    as (R & others & HR & HS & HL & HP & HM); [|done| |].
  { apply sorted_StronglySorted; [apply pair_lt_asym|apply pair_lt_not_gt_trans]. }
  { intros x y _ Hy. by apply elem_of_nil in Hy. }
  exists R, others. split; [done|]. split; [done|]. split; [|split; [|done]].
  - rewrite HL. by apply Permutation_length.
  - rewrite HP, Hperm0. simpl. by rewrite Hpairs.
Qed.

Lemma sort_nbest_length (rev_index : gmap Z Z) (docids : list Z)
    (reverse : bool) (k : Z) :
  1 ≤ k →
  (length (Field.yields (Field.sort_nbest rev_index docids reverse (Some k)))
   ≤ Z.to_nat k)%nat.
Proof.
  intros Hk. unfold Field.sort_nbest. destruct reverse.
  - cbn [heapq_nlargest Field.gen_docids Field.yields].
    rewrite !length_fmap, length_take. lia.
  - destruct (islice _ (Some k)) as [head it] eqn:Hslice.
    destruct (last (sorted pair_lt head)) as [los|] eqn:Hlast.
    + destruct (sort_nbest_ascending_result _ _ _ _ _ _ Hslice Hlast)
        as (R & others & -> & _ & HL & _).
      cbn [Field.gen_docids Field.yields]. rewrite !length_fmap, HL.
      unfold islice in Hslice. injection Hslice as <- _.
      rewrite length_take. lia.
    + simpl. lia.
Qed.

Lemma sort_nbest_subseteq (rev_index : gmap Z Z) (docids : list Z)
    (reverse : bool) (limit : option Z) (d : Z) :
  Field.Docid d ∈ Field.yields (Field.sort_nbest rev_index docids reverse limit) →
  d ∈ docids ∧ is_Some (rev_index !! d).
Proof.
  unfold Field.sort_nbest. destruct reverse.
  - destruct limit as [k|]; cbn [heapq_nlargest]; [|by intros ?%elem_of_nil].
    cbn [Field.gen_docids Field.yields].
    intros (d' & [= <-] & ([v d''] & -> & Hin)%list_elem_of_fmap)%list_elem_of_fmap.
    apply subseteq_take in Hin. rewrite sorted_Permutation in Hin.
    apply elem_of_nsort_inv in Hin as [? ?]. eauto.
  - destruct (islice _ limit) as [head it] eqn:Hslice.
    destruct (last (sorted pair_lt head)) as [los|] eqn:Hlast.
    + destruct (sort_nbest_ascending_result _ _ _ _ _ _ Hslice Hlast)
        as (R & others & -> & _ & _ & HP & _).
      cbn [Field.gen_docids Field.yields].
      intros (d' & [= <-] & ([v d''] & -> & Hin)%list_elem_of_fmap)%list_elem_of_fmap.
      assert (Hin' : (v, d'') ∈ R ++ others) by (apply elem_of_app; by left).
      rewrite HP in Hin'. apply elem_of_nsort_inv in Hin' as [? ?]. eauto.
    + cbn [Field.yields]. intros Hin%list_elem_of_singleton. discriminate Hin.
Qed.

(** X1.  [sort] never hands out more objects than the limit allows, in any
    state of the index and with any strategy, forced or not. *)
Theorem sort_at_most_limit (self : Field.CatalogFieldIndex) (docids : gset Z)
    (reverse : bool) (k : Z) :
  (length (Field.yields (Field.sort self docids reverse (Some k)))
   ≤ Z.to_nat k)%nat.
Proof.
  destruct (decide (k < 1)) as [Hk|Hk].
  { rewrite sort_limit_too_small by done. simpl. lia. }
  unfold Field.sort. rewrite (proj2 (Z.ltb_ge k 1)) by lia.
  destruct (decide (docids = ∅)); [simpl; lia|].
  destruct (Field._num_docs self =? 0); [simpl; lia|].
  destruct (Field.select_strategy _ _ _ _).
  - apply sort_nbest_length. lia.
  - unfold Field.sort_lazy, btree_values.
    rewrite sort_lazy_loop_flat, emit_Some by lia.
    cbn [Field.gen_docids Field.yields]. rewrite length_fmap, length_take. lia.
  - unfold Field.sort_full. rewrite emit_Some by lia.
    cbn [Field.gen_docids Field.yields]. rewrite length_fmap, length_take. lia.
Qed.

(** X2.  Every document id [sort] emits is one of the candidates, in any
    state and with any strategy; outside the lazy walk it also has a reverse
    entry. *)
Theorem sort_emits_candidates (self : Field.CatalogFieldIndex) (docids : gset Z)
    (reverse : bool) (limit : option Z) (d : Z) :
  Field.Docid d ∈ Field.yields (Field.sort self docids reverse limit) →
  d ∈ docids ∧
  (Field.select_strategy self (Z.of_nat (size docids)) reverse limit
     ≠ Field.LazyAscending →
   is_Some (Field._rev_index self !! d)).
Proof.
  unfold Field.sort.
  destruct (match limit with Some l => l <? 1 | None => false end);
    [by intros ?%elem_of_nil|].
  destruct (decide (docids = ∅)); [by intros ?%elem_of_nil|].
  destruct (Field._num_docs self =? 0); [by intros ?%elem_of_nil|].
  destruct (Field.select_strategy _ _ _ _).
  - intros [Hd Hp]%sort_nbest_subseteq. by apply elem_of_iter_set in Hd.
  - unfold Field.sort_lazy, btree_values. rewrite sort_lazy_loop_flat.
    cbn [Field.gen_docids Field.yields].
    intros (d' & [= <-] & Hin%emit_subseteq)%list_elem_of_fmap.
    apply elem_of_lazy_walk in Hin as [Hd _]. done.
  - unfold Field.sort_full. cbn [Field.gen_docids Field.yields].
    intros (d' & [= <-] & Hin%emit_subseteq)%list_elem_of_fmap.
    apply list_elem_of_filter in Hin as [Hp Hin]. split; [|done].
    unfold sorted_by in Hin. rewrite sorted_Permutation in Hin.
    by apply elem_of_iter_set in Hin.
Qed.

Lemma sort_emits_candidates_witness :
  2 ∈ ({[1; 2; 3]} : gset Z) ∧
  (Field.select_strategy abc_index (Z.of_nat (size ({[1; 2; 3]} : gset Z)))
     false None ≠ Field.LazyAscending →
   is_Some (Field._rev_index abc_index !! 2)).
Proof.
  apply (sort_emits_candidates abc_index {[1; 2; 3]} false None 2).
  vm_compute. apply list_elem_of_here.
Defined.

(** ** Sort: the n-best branch computes a sorted prefix *)

Lemma pair_not_gt_antisym (a b : Z * Z) :
  not_gt pair_lt a b → not_gt pair_lt b a → a = b.
Proof.
  unfold not_gt, pair_lt. destruct a as [a1 a2], b as [b1 b2]. simpl.
  intros H1 H2. f_equal; lia.
Qed.

Lemma sorted_pairs_unique (l1 l2 : list (Z * Z)) :
  StronglySorted (not_gt pair_lt) l1 → StronglySorted (not_gt pair_lt) l2 →
  l1 ≡ₚ l2 → l1 = l2.
Proof.
  apply StronglySorted_unique_strong. intros x1 x2 _ _. apply pair_not_gt_antisym.
Qed.

Lemma sorted_pair_lt_StronglySorted (l : list (Z * Z)) :
  StronglySorted (not_gt pair_lt) (sorted pair_lt l).
Proof.
  apply sorted_StronglySorted; [apply pair_lt_asym|apply pair_lt_not_gt_trans].
Qed.

Lemma sort_nbest_ascending_prefix (rev_index : gmap Z Z) (docids : list Z)
    (limit : option Z) :
  valid_limit limit →
  Field.nsort rev_index docids ≠ [] →
  Field.sort_nbest rev_index docids false limit
    = Field.gen_docids
        ((truncate limit (sorted pair_lt (Field.nsort rev_index docids))).*2).
Proof.
  intros Hlimit Hne. unfold Field.sort_nbest.
  set (pairs := Field.nsort rev_index docids) in *.
  destruct (islice pairs limit) as [head it] eqn:Hslice.
  assert (Hhead : head ≠ [] ∧
            length head = length (truncate limit (sorted pair_lt pairs))).
  { unfold islice in Hslice. destruct limit as [k|]; injection Hslice as <- <-.
    - split.
      + specialize (Hlimit k eq_refl). destruct pairs; [done|].
        replace (Z.to_nat k) with (S (Z.to_nat (k - 1))) by lia. done.
      + cbn [truncate]. rewrite !length_take.
        by rewrite (Permutation_length (sorted_Permutation pair_lt pairs)).
    - split; [done|]. cbn [truncate]. symmetry.
      apply Permutation_length, sorted_Permutation. }
  destruct Hhead as [Hhead Hlen].
  destruct (last (sorted pair_lt head)) as [los|] eqn:Hlast.
  2: { by apply last_None, sorted_nil_inv in Hlast. }
  destruct (sort_nbest_ascending_result _ _ _ _ _ _ Hslice Hlast)
    as (R & others & -> & HS & HL & HP & HM).
  do 2 f_equal.
  assert (Hall : R ++ sorted pair_lt others = sorted pair_lt pairs).
  { apply sorted_pairs_unique.
    - apply StronglySorted_app. split; [|split; [done|]].
      + intros x y Hx Hy. apply HM; [done|]. by rewrite sorted_Permutation in Hy.
      + apply sorted_pair_lt_StronglySorted.
    - apply sorted_pair_lt_StronglySorted.
    - by rewrite !sorted_Permutation. }
  rewrite <-Hall in Hlen |- *. rewrite Hlen in HL.
  destruct limit as [k|]; cbn [truncate] in *.
  - rewrite length_take in HL.
    destruct (decide (Z.to_nat k ≤ length R)%nat).
    + rewrite take_app_le by done. rewrite take_ge; [done|lia].
    + rewrite take_ge; [|lia]. rewrite length_app in HL.
      assert (sorted pair_lt others = []) as -> by (apply nil_length_inv; lia).
      by rewrite app_nil_r.
  - rewrite length_app in HL.
    assert (sorted pair_lt others = []) as -> by (apply nil_length_inv; lia).
    by rewrite app_nil_r.
Qed.

(** X3.  The loop "lifted from heapq.nsmallest" is correct whenever it has
    something to sort: the ascending n-best branch emits the docids of
    [sorted(pairs)[:limit]], the pairs [(val, docid)] compared as tuples. *)
Theorem sort_nbest_ascending_exact (rev_index : gmap Z Z) (docids : list Z)
    (limit : option Z) :
  valid_limit limit →
  Field.nsort rev_index docids ≠ [] →
  Field.sort_nbest rev_index docids false limit
    = Field.gen_docids
        ((truncate limit (sorted pair_lt (Field.nsort rev_index docids))).*2).
Proof. apply sort_nbest_ascending_prefix. Qed.

Lemma sort_nbest_ascending_exact_witness :
  Field.sort_nbest (Field._rev_index abc_index) [1; 2; 3; 4] false (Some 2)
    = Field.gen_docids
        ((truncate (Some 2)
            (sorted pair_lt
               (Field.nsort (Field._rev_index abc_index) [1; 2; 3; 4]))).*2).
Proof.
  apply (sort_nbest_ascending_exact (Field._rev_index abc_index) [1; 2; 3; 4]
           (Some 2)).
  - intros l [= <-]. lia.
  - vm_compute. discriminate.
Defined.

(** ** Sort: the order of ids with equal values *)

Section stable.
Context {A : Type} (lt : A → A → bool) (ord : relation A).
Hypothesis lt_asym : ∀ x y, lt x y = true → lt y x = false.
Hypothesis not_gt_trans : ∀ x y z, not_gt lt x y → not_gt lt y z → not_gt lt x z.

Lemma insort_stable x a :
  StronglySorted (stable_order lt ord) a → (∀ y, y ∈ a → ord y x) →
  StronglySorted (stable_order lt ord) (insort lt x a).
Proof.
  induction a as [|y a IH]; simpl; intros Ha Hord.
  - repeat constructor.
  - apply StronglySorted_cons in Ha as [Hy Ha].
    destruct (lt x y) eqn:Hxy.
    + apply StronglySorted_cons. split; [|by apply StronglySorted_cons].
      constructor; [by left|].
      apply Forall_forall. intros z Hz. left.
      eapply Forall_forall in Hy; [|done].
      destruct (lt x z) eqn:Hxz; [done|].
      assert (not_gt lt y z) as Hyz.
      { destruct Hy as [Hy|(_ & Hy & _)]; [by apply lt_asym|done]. }
      pose proof (not_gt_trans y z x Hyz Hxz) as Hyx.
      unfold not_gt in Hyx. congruence.
    + apply StronglySorted_cons. split.
      * rewrite insort_Permutation. constructor; [|done].
        destruct (lt y x) eqn:Hyx; [by left|right].
        repeat split; [done..|]. apply Hord. by left.
      * apply IH; [done|]. intros z Hz. apply Hord. by right.
Qed.

Lemma sorted_stable l :
  StronglySorted ord l → StronglySorted (stable_order lt ord) (sorted lt l).
Proof.
  unfold sorted.
  assert (H : ∀ acc, StronglySorted (stable_order lt ord) acc →
            (∀ y x, y ∈ acc → x ∈ l → ord y x) → StronglySorted ord l →
            StronglySorted (stable_order lt ord)
              (foldl (λ acc x, insort lt x acc) acc l)).
  { induction l as [|x l IH]; intros acc Hacc Hord Hl; simpl; [done|].
    apply StronglySorted_cons in Hl as [Hx Hl]. apply IH; [| |done].
    - apply insort_stable; [done|]. intros y Hy. apply Hord; [done|by left].
    - intros y z Hy Hz. rewrite insort_Permutation in Hy.
      apply elem_of_cons in Hy as [->|Hy].
      + by eapply Forall_forall in Hx.
      + apply Hord; [done|by right]. }
  intros Hl. apply H; [constructor| |done]. by intros y x ?%elem_of_nil.
Qed.
End stable.

Lemma iter_set_StronglySorted (s : gset Z) : StronglySorted Z.lt (iter_set s).
Proof.
  pose proof (NoDup_iter_set s) as Hnodup.
  assert (Hle : StronglySorted Z.le (iter_set s))
    by (apply StronglySorted_merge_sort; apply _).
  revert Hnodup Hle. generalize (iter_set s) as l.
  induction l as [|x l IH]; intros Hnodup Hle; [constructor|].
  apply NoDup_cons in Hnodup as [Hx Hnodup].
  apply StronglySorted_cons in Hle as [Hhd Hle].
  apply StronglySorted_cons. split; [|by apply IH].
  apply Forall_forall. intros y Hy.
  eapply Forall_forall in Hhd; [|done].
  assert (x ≠ y) by (by intros ->). lia.
Qed.

Lemma tie_order_unique rev_index reverse ties (l1 l2 : list Z) :
  StronglySorted (tie_order rev_index reverse ties) l1 →
  StronglySorted (tie_order rev_index reverse ties) l2 →
  l1 ≡ₚ l2 → l1 = l2.
Proof.
  apply StronglySorted_unique_strong. intros x1 x2 _ _. unfold tie_order.
  destruct (rev_index !! x1), (rev_index !! x2); try done.
  destruct reverse, ties; lia.
Qed.

(** The list the full sort cuts its output from. *)
Lemma sort_full_tie_order (rev_index : gmap Z Z) (docids : gset Z)
    (reverse : bool) :
  StronglySorted (tie_order rev_index reverse false)
    (filter (λ docid, is_Some (rev_index !! docid))
       (sorted_by key_lt (λ docid, rev_index !! docid) reverse (iter_set docids))).
Proof.
  unfold sorted_by.
  set (lt := λ x y : Z, if reverse then key_lt (rev_index !! y) (rev_index !! x)
                        else key_lt (rev_index !! x) (rev_index !! y)).
  apply (StronglySorted_impl_elem_of (stable_order lt Z.lt)).
  - intros x y [[vx Hx] _]%list_elem_of_filter [[vy Hy] _]%list_elem_of_filter.
    unfold stable_order, lt, tie_order. rewrite Hx, Hy.
    destruct reverse; simpl; lia.
  - apply StronglySorted_filter, sorted_stable.
    + intros x y. unfold lt. destruct reverse; apply key_lt_asym.
    + intros x y z. unfold not_gt, lt.
      destruct reverse; eauto using key_lt_not_gt_trans.
    + apply iter_set_StronglySorted.
Qed.

(** The list the lazy walk cuts its output from. *)
Lemma lazy_walk_tie_order (rev_index : gmap Z Z) (docids : gset Z)
    (items : list (Z * gset Z)) :
  (∀ v b d, (v, b) ∈ items → d ∈ b → rev_index !! d = Some v) →
  StronglySorted key_le items →
  NoDup (items.*1) →
  StronglySorted (tie_order rev_index false false) (lazy_walk docids items).
Proof.
  induction items as [|[v b] items IH]; intros Hval Hsorted Hnodup; [constructor|].
  apply StronglySorted_cons in Hsorted as [Hv Hsorted].
  apply NoDup_cons in Hnodup as [Hfresh Hnodup].
  change (lazy_walk docids ((v, b) :: items))
    with (iter_set (docids ∩ b) ++ lazy_walk docids items).
  assert (Hseg : ∀ d, d ∈ iter_set (docids ∩ b) → rev_index !! d = Some v).
  { intros d [_ Hd]%elem_of_iter_set%elem_of_intersection.
    eapply Hval; [by left|done]. }
  apply StronglySorted_app. split; [|split].
  - intros x1 x2 Hx1%Hseg (_ & v' & b' & Hin & Hd)%elem_of_lazy_walk.
    unfold tie_order. rewrite Hx1, (Hval v' b' x2) by (by right || done).
    left. eapply Forall_forall in Hv; [|done]. unfold key_le in Hv. simpl in Hv.
    assert (v ≠ v'); [|lia]. intros ->. apply Hfresh.
    apply list_elem_of_fmap. by exists (v', b').
  - eapply StronglySorted_impl_elem_of; [|apply iter_set_StronglySorted].
    intros x y Hx%Hseg Hy%Hseg Hlt. unfold tie_order. rewrite Hx, Hy. by right.
  - apply IH; [|done..]. intros v' b' d Hin. apply Hval. by right.
Qed.

(** The list the n-best branch cuts its output from. *)
Lemma nbest_tie_order (rev_index : gmap Z Z) (reverse : bool)
    (pairs : list (Z * Z)) :
  (∀ v d, (v, d) ∈ pairs → rev_index !! d = Some v) →
  NoDup (pairs.*2) →
  StronglySorted
    (not_gt (λ x y, if reverse then pair_lt y x else pair_lt x y)) pairs →
  StronglySorted (tie_order rev_index reverse reverse) (pairs.*2).
Proof.
  induction pairs as [|[v d] pairs IH]; intros Hval Hnodup Hsorted; [constructor|].
  apply StronglySorted_cons in Hsorted as [Hhd Hsorted].
  cbn [fmap list_fmap snd] in *. apply NoDup_cons in Hnodup as [Hfresh Hnodup].
  apply StronglySorted_cons. split.
  - apply Forall_forall. intros d' Hd'.
    pose proof Hd' as ([v' d''] & -> & Hin)%list_elem_of_fmap.
    eapply Forall_forall in Hhd; [|done].
    assert (d ≠ d'') by (intros ->; by apply Hfresh).
    unfold tie_order. cbn [snd].
    rewrite (Hval v d), (Hval v' d'') by (by left || by right).
    revert Hhd. unfold not_gt, pair_lt. simpl. destruct reverse; lia.
  - apply IH; [|done..]. intros v' d' Hin. apply Hval. by right.
Qed.

Lemma lazy_walk_Permutation (self : Field.CatalogFieldIndex) (docids : gset Z) :
  well_formed self →
  lazy_walk docids (btree_items (Field._fwd_index self))
    ≡ₚ filter (λ docid, is_Some (Field._rev_index self !! docid)) (elements docids).
Proof.
  intros [[Hfwd _] Hback].
  destruct (lazy_walk_sorted (Field._rev_index self) docids
              (btree_items (Field._fwd_index self))) as [_ Hnodup].
  { intros v b d Hin%elem_of_btree_items. by apply Hback. }
  { apply StronglySorted_merge_sort; apply _. }
  { unfold btree_items. rewrite merge_sort_Permutation.
    apply NoDup_fst_map_to_list. }
  apply NoDup_Permutation; [done|apply NoDup_filter, NoDup_elements|].
  intros d. rewrite elem_of_lazy_walk, list_elem_of_filter, elem_of_elements.
  split.
  - intros (Hd & v & b & Hin%elem_of_btree_items & Hb). split; [|done].
    exists v. by eapply Hback.
  - intros [[v Hv] Hd]. split; [done|].
    destruct (Hfwd d v Hv) as (b & Hb & Hin). exists v, b.
    split; [by apply elem_of_btree_items|done].
Qed.

(** Under the invariant, [sort] cuts its output from the one list of the
    present candidates that is strictly sorted by the tie order of the
    selected strategy. *)
Lemma sort_emits_exact (self : Field.CatalogFieldIndex) (docids : gset Z)
    (reverse : bool) (limit : option Z) :
  well_formed self → valid_limit limit →
  nbest_defined self docids reverse limit →
  ∃ l,
    l ≡ₚ filter (λ docid, is_Some (Field._rev_index self !! docid))
           (elements docids) ∧
    StronglySorted
      (tie_order (Field._rev_index self) reverse
         (ties_descend
            (Field.select_strategy self (Z.of_nat (size docids)) reverse limit)
            reverse)) l ∧
    Field.sort self docids reverse limit = Field.gen_docids (truncate limit l).
Proof.
  intros Hwf Hlimit Hnbest. unfold Field.sort.
  assert (match limit with Some l => l <? 1 | None => false end = false) as ->.
  { destruct limit as [l|]; [|done]. specialize (Hlimit l eq_refl). lia. }
  assert (Hnothing : (∀ d, d ∈ docids → Field._rev_index self !! d = None) →
            [] ≡ₚ filter (λ docid, is_Some (Field._rev_index self !! docid))
                    (elements docids)).
  { intros Hnone. symmetry. apply Permutation_nil_r, elem_of_nil_inv.
    intros d [[v Hv] Hd%elem_of_elements]%list_elem_of_filter.
    by rewrite Hnone in Hv. }
  assert (Hnil : ∀ A, truncate limit (@nil A) = []).
  { intros A. destruct limit; simpl; by rewrite ?take_nil. }
  destruct (decide (docids = ∅)) as [->|Hdocids].
  { exists []. rewrite Hnil. split; [|split; [constructor|done]].
    apply Hnothing. by intros d ?%not_elem_of_empty. }
  destruct (Field._num_docs self =? 0) eqn:Hnum.
  { exists []. rewrite Hnil. split; [|split; [constructor|done]].
    apply Hnothing. intros d _. destruct Hwf as [[_ Hcount] _].
    assert (Hz : Field._rev_index self = ∅) by (apply map_size_empty_iff; lia).
    by rewrite Hz, lookup_empty. }
  unfold nbest_defined in Hnbest.
  destruct (Field.select_strategy self (Z.of_nat (size docids)) reverse limit)
    eqn:Hstrategy; cbn [ties_descend].
  - (* n-best *)
    specialize (Hnbest eq_refl).
    set (pairs := Field.nsort (Field._rev_index self) (iter_set docids)).
    set (lt := λ x y : Z * Z, if reverse then pair_lt y x else pair_lt x y).
    assert (Hsnd : pairs.*2 ≡ₚ filter (λ docid, is_Some (Field._rev_index self !! docid))
                                (elements docids)).
    { unfold pairs. by rewrite nsort_snd, iter_set_Permutation. }
    exists ((sorted lt pairs).*2). split; [|split].
    + by rewrite sorted_Permutation.
    + apply nbest_tie_order.
      * intros v d Hin. rewrite sorted_Permutation in Hin.
        by apply elem_of_nsort in Hin.
      * rewrite sorted_Permutation. unfold pairs. rewrite nsort_snd.
        apply NoDup_filter, NoDup_iter_set.
      * apply sorted_StronglySorted.
        -- intros x y. unfold lt. destruct reverse; apply pair_lt_asym.
        -- intros x y z. unfold not_gt, lt.
           destruct reverse; eauto using pair_lt_not_gt_trans.
    + destruct reverse.
      * destruct Hnbest as [k ->]. unfold Field.sort_nbest.
        cbn [heapq_nlargest truncate]. by rewrite fmap_take.
      * destruct Hnbest as (d0 & Hd0 & [v0 Hv0]).
        rewrite sort_nbest_ascending_prefix; [| done |].
        -- f_equal. destruct limit; cbn [truncate]; [|done]. by rewrite fmap_take.
        -- intros Hnil'.
           assert (Hin : (v0, d0) ∈ Field.nsort (Field._rev_index self) (iter_set docids)).
           { apply elem_of_nsort_inv. split; [by apply elem_of_iter_set|done]. }
           rewrite Hnil' in Hin. by apply elem_of_nil in Hin.
  - (* lazy walk *)
    assert (reverse = false) as ->.
    { unfold Field.select_strategy in Hstrategy.
      destruct reverse; [|done]. rewrite andb_false_r in Hstrategy.
      by destruct (_ || Field.use_nbest self). }
    exists (lazy_walk docids (btree_items (Field._fwd_index self))).
    split; [by apply lazy_walk_Permutation|]. split.
    + destruct Hwf as [_ Hback]. apply lazy_walk_tie_order.
      * intros v b d Hin%elem_of_btree_items. by apply Hback.
      * apply StronglySorted_merge_sort; apply _.
      * unfold btree_items. rewrite merge_sort_Permutation.
        apply NoDup_fst_map_to_list.
    + unfold Field.sort_lazy, btree_values.
      by rewrite sort_lazy_loop_flat, emit_truncate.
  - (* full sort *)
    eexists. split; [|split; [apply sort_full_tie_order|]].
    + unfold sorted_by. by rewrite sorted_Permutation, iter_set_Permutation.
    + unfold Field.sort_full. by rewrite emit_truncate.
Qed.

(** X4.  Under the invariant the output of [sort] is strictly ordered: by
    value, and among equal values by ascending docid in the lazy walk, in
    the full sort (also when reversed, the sort being stable) and in the
    ascending n-best branch, but by descending docid in the reversed n-best
    branch.  So no id is emitted twice. *)
Theorem sort_tie_order (self : Field.CatalogFieldIndex) (docids : gset Z)
    (reverse : bool) (limit : option Z) :
  well_formed self → valid_limit limit →
  nbest_defined self docids reverse limit →
  ∃ out,
    Field.sort self docids reverse limit = Field.gen_docids out ∧
    StronglySorted
      (tie_order (Field._rev_index self) reverse
         (ties_descend
            (Field.select_strategy self (Z.of_nat (size docids)) reverse limit)
            reverse)) out ∧
    NoDup out.
Proof.
  intros Hwf Hlimit Hnbest.
  destruct (sort_emits_exact self docids reverse limit) as (l & Hp & Hs & ->);
    [done..|].
  exists (truncate limit l). split; [done|].
  assert (Hnodup : NoDup l).
  { rewrite Hp. apply NoDup_filter, NoDup_elements. }
  destruct limit as [k|]; cbn [truncate]; [|done].
  rewrite <-(take_drop (Z.to_nat k) l) in Hs, Hnodup.
  apply StronglySorted_app in Hs as (_ & Hs & _).
  by apply NoDup_app in Hnodup as (Hnodup & _ & _).
Qed.

Lemma sort_tie_order_witness :
  ∃ out,
    Field.sort (force_nbest abc_index) {[1; 2; 3]} true (Some 2)
      = Field.gen_docids out ∧
    StronglySorted
      (tie_order (Field._rev_index (force_nbest abc_index)) true
         (ties_descend
            (Field.select_strategy (force_nbest abc_index)
               (Z.of_nat (size ({[1; 2; 3]} : gset Z))) true (Some 2))
            true)) out ∧
    NoDup out.
Proof.
  apply (sort_tie_order (force_nbest abc_index) {[1; 2; 3]} true (Some 2)).
  - apply (well_formed_run_calls (AttrName "f") abc_calls).
  - intros l [= <-]. lia.
  - intros _. by exists 2.
Defined.

(** X5.  An ascending sort does not depend on the strategy at all: two states
    with the same stores and any overrides emit the very same sequence. *)
Theorem sort_ascending_deterministic (self1 self2 : Field.CatalogFieldIndex)
    (docids : gset Z) (limit : option Z) :
  well_formed self1 → same_store self1 self2 → valid_limit limit →
  nbest_defined self1 docids false limit →
  nbest_defined self2 docids false limit →
  Field.sort self1 docids false limit = Field.sort self2 docids false limit.
Proof.
  intros Hwf (Hfwd & Hrev & Hnum) Hlimit Hn1 Hn2.
  assert (Hwf2 : well_formed self2).
  { destruct Hwf as [[H1 H2] H3]. unfold well_formed, consistent.
    rewrite <-Hfwd, <-Hrev, <-Hnum. done. }
  destruct (sort_emits_exact self1 docids false limit) as (l1 & Hp1 & Hs1 & ->);
    [done..|].
  destruct (sort_emits_exact self2 docids false limit) as (l2 & Hp2 & Hs2 & ->);
    [done..|].
  rewrite <-Hrev in Hp2, Hs2.
  assert (Hties : ∀ s, ties_descend s false = false) by (by intros []).
  rewrite Hties in Hs1, Hs2.
  do 2 f_equal. eapply tie_order_unique; [done..|]. by rewrite Hp1, Hp2.
Qed.

Lemma sort_ascending_deterministic_witness :
  Field.sort abc_index {[1; 2; 3]} false (Some 2)
    = Field.sort (force_lazy abc_index) {[1; 2; 3]} false (Some 2).
Proof.
  apply (sort_ascending_deterministic abc_index (force_lazy abc_index)
           {[1; 2; 3]} (Some 2)).
  - apply (well_formed_run_calls (AttrName "f") abc_calls).
  - repeat split.
  - intros l [= <-]. lia.
  - intros Hsel. vm_compute in Hsel. discriminate Hsel.
  - intros Hsel. vm_compute in Hsel. discriminate Hsel.
Defined.

(** With equal values and a limit, a reversed sort emits another id when the
    n-best branch is forced. *)
Example sort_reverse_ties :
  Field.sort tie_index {[1; 2]} true (Some 1) = Field.gen_docids [1] ∧
  Field.sort (force_nbest tie_index) {[1; 2]} true (Some 1) = Field.gen_docids [2].
Proof. split; vm_compute; reflexivity. Qed.

(** ** Field index: unindex_doc *)

(** X6.  [unindex_doc] is idempotent: the second call for the same docid
    finds no reverse entry and changes nothing, in any state. *)
Theorem unindex_doc_idempotent (self : Field.CatalogFieldIndex) (docid : Z) :
  Field.unindex_doc docid (Field.unindex_doc docid self)
    = Field.unindex_doc docid self.
Proof.
  unfold Field.unindex_doc.
  destruct (Field._rev_index self !! docid) as [value|] eqn:Hrev.
  - store_simpl. by rewrite lookup_delete_eq.
  - by rewrite Hrev.
Qed.

(** X7.  [unindex_doc] leaves every other document alone: its reverse entry
    and its membership in each forward bucket are what they were, and so are
    the discriminator and the overrides. *)
Theorem unindex_doc_other (self : Field.CatalogFieldIndex) (docid other : Z) :
  other ≠ docid →
  Field._rev_index (Field.unindex_doc docid self) !! other
    = Field._rev_index self !! other ∧
  (∀ value, in_bucket (Field._fwd_index (Field.unindex_doc docid self)) value other
            ↔ in_bucket (Field._fwd_index self) value other) ∧
  Field.discriminator (Field.unindex_doc docid self) = Field.discriminator self ∧
  Field.use_lazy (Field.unindex_doc docid self) = Field.use_lazy self ∧
  Field.use_nbest (Field.unindex_doc docid self) = Field.use_nbest self.
Proof.
  intros Hne. unfold Field.unindex_doc.
  destruct (Field._rev_index self !! docid) as [value|] eqn:Hrev.
  2: { split; [done|]. split; [intros; reflexivity|done]. }
  store_simpl. split; [by apply lookup_delete_ne|]. split; [|done].
  intros v. unfold in_bucket. split.
  - intros (set & Hset & Hin). by eapply unindex_doc_forward_subset.
  - intros (set & Hset & Hin). by eapply unindex_doc_forward_keeps.
Qed.

Lemma unindex_doc_other_witness :
  Field._rev_index (Field.unindex_doc 1 abc_index) !! 2
    = Field._rev_index abc_index !! 2.
Proof.
  apply (unindex_doc_other abc_index 1 2). discriminate.
Defined.

(** X8.  In a state that satisfies the invariant, [unindex_doc] removes the
    document completely, from the reverse index and from every forward
    bucket, and the invariant still holds afterwards. *)
Theorem unindex_doc_removes (self : Field.CatalogFieldIndex) (docid : Z) :
  well_formed self →
  Field._rev_index (Field.unindex_doc docid self) !! docid = None ∧
  (∀ value, ¬ in_bucket (Field._fwd_index (Field.unindex_doc docid self))
                value docid) ∧
  well_formed (Field.unindex_doc docid self).
Proof.
  intros Hwf. pose proof (well_formed_unindex_doc self docid Hwf) as Hwf'.
  assert (Hrev : Field._rev_index (Field.unindex_doc docid self) !! docid = None).
  { unfold Field.unindex_doc.
    destruct (Field._rev_index self !! docid) eqn:Hrev; [|done].
    store_simpl. apply lookup_delete_eq. }
  split; [done|]. split; [|done].
  intros value (set & Hset & Hin). destruct Hwf' as [_ Hback].
  rewrite (Hback _ _ _ Hset Hin) in Hrev. discriminate.
Qed.

Lemma unindex_doc_removes_witness :
  Field._rev_index (Field.unindex_doc 2 abc_index) !! 2 = None ∧
  (∀ value, ¬ in_bucket (Field._fwd_index (Field.unindex_doc 2 abc_index))
                value 2) ∧
  well_formed (Field.unindex_doc 2 abc_index).
Proof.
  apply (unindex_doc_removes abc_index 2).
  apply (well_formed_run_calls (AttrName "f") abc_calls).
Defined.

(** X9.  [unindex_doc] prunes: if no bucket of the forward index was empty
    before the call, none is empty after it, in any state. *)
Theorem unindex_doc_prunes (self : Field.CatalogFieldIndex) (docid : Z) :
  no_empty_bucket (Field._fwd_index self) →
  no_empty_bucket (Field._fwd_index (Field.unindex_doc docid self)).
Proof.
  intros Hne. unfold Field.unindex_doc.
  destruct (Field._rev_index self !! docid) as [value|]; [|done].
  store_simpl. unfold Field.unindex_doc_forward.
  destruct (Field._fwd_index self !! value) as [s|] eqn:Hs; [|done].
  destruct (decide (docid ∈ s)); [|done].
  destruct (decide (s ∖ {[docid]} = ∅)); intros v set Hset.
  - apply lookup_delete_Some in Hset as [_ Hset]. by eapply Hne.
  - apply lookup_insert_Some in Hset as [[_ <-]|[_ Hset]]; [done|by eapply Hne].
Qed.

Lemma abc_index_no_empty_bucket : no_empty_bucket (Field._fwd_index abc_index).
Proof.
  assert (Field._fwd_index abc_index
          = {[ 10 := {[2]}; 20 := {[1]}; 30 := {[3]} ]}) as -> by by vm_compute.
  intros value set Hset.
  repeat (apply lookup_insert_Some in Hset as [[_ <-]|[_ Hset]];
          [apply non_empty_singleton_L|]).
  apply lookup_singleton_Some in Hset as [_ <-]. apply non_empty_singleton_L.
Qed.

(** Document 1 is alone in the bucket of its value 20: removing it empties
    the bucket, and the bucket is deleted. *)
Lemma unindex_doc_prunes_witness :
  no_empty_bucket (Field._fwd_index abc_index) ∧
  no_empty_bucket (Field._fwd_index (Field.unindex_doc 1 abc_index)).
Proof.
  split; [exact abc_index_no_empty_bucket|].
  apply (unindex_doc_prunes abc_index 1).
  exact abc_index_no_empty_bucket.
Defined.

Example unindex_doc_prunes_last_member :
  Field._rev_index abc_index !! 1 = Some 20 ∧
  Field._fwd_index abc_index !! 20 = Some {[1]} ∧
  Field._fwd_index (Field.unindex_doc 1 abc_index) !! 20 = None ∧
  Field._fwd_index (Field.unindex_doc 1 abc_index)
    = {[ 10 := {[2]}; 30 := {[3]} ]}.
Proof. by vm_compute. Qed.

(** ** Keyword index: search, _insert_forward, apply *)

Lemma search_PyList (self : Keyword.CatalogKeywordIndex) (terms : list string) :
  Keyword.search self (Keyword.PyList terms) (Keyword.PyStr "and")
    = Ok (combine_postings (∩) self terms) ∧
  Keyword.search self (Keyword.PyList terms) (Keyword.PyStr "or")
    = Ok (combine_postings (∪) self terms).
Proof.
  unfold Keyword.search, combine_postings, postings. cbn [Keyword.combinator].
  rewrite decide_True by done.
  rewrite (decide_False (P := "or" = "and")), decide_True by done.
  destruct terms as [|first rest]; [done|]. cbn [foldl IF_intersection IF_union].
  rewrite foldl_IF_intersection, foldl_IF_union.
  split; case_decide; congruence.
Qed.

Lemma elem_of_foldl_intersection (p : string → gset Z) (a : gset Z)
    (terms : list string) (d : Z) :
  d ∈ foldl (λ running term, running ∩ p term) a terms
  ↔ d ∈ a ∧ ∀ t, t ∈ terms → d ∈ p t.
Proof.
  revert a. induction terms as [|t terms IH]; intros a; simpl.
  - split; [intros H; split; [done|]; by intros t ?%elem_of_nil|by intros [? _]].
  - rewrite IH, elem_of_intersection. split.
    + intros [[Ha Ht] Hall]. split; [done|].
      intros t' [->|Hin]%elem_of_cons; [done|by apply Hall].
    + intros [Ha Hall]. repeat split; [done|apply Hall; by left|].
      intros t' Hin. apply Hall. by right.
Qed.

Lemma elem_of_foldl_union (p : string → gset Z) (a : gset Z)
    (terms : list string) (d : Z) :
  d ∈ foldl (λ running term, running ∪ p term) a terms
  ↔ d ∈ a ∨ ∃ t, t ∈ terms ∧ d ∈ p t.
Proof.
  revert a. induction terms as [|t terms IH]; intros a; simpl.
  - split; [by left|]. by intros [?|(t & ?%elem_of_nil & _)].
  - rewrite IH, elem_of_union. split.
    + intros [[Ha|Ht]|(t' & Hin & Hd)]; [by left| |].
      * right. exists t. split; [by left|done].
      * right. exists t'. split; [by right|done].
    + intros [Ha|(t' & [->|Hin]%elem_of_cons & Hd)].
      * left. by left.
      * left. by right.
      * right. eauto.
Qed.

Lemma elem_of_combine_and (self : Keyword.CatalogKeywordIndex)
    (terms : list string) (d : Z) :
  d ∈ combine_postings (∩) self terms
  ↔ terms ≠ [] ∧ ∀ t, t ∈ terms → d ∈ postings self t.
Proof.
  unfold combine_postings. destruct terms as [|first rest].
  - split; [by intros ?%not_elem_of_empty|by intros [? _]].
  - rewrite elem_of_foldl_intersection. split.
    + intros [Hf Hall]. split; [done|].
      intros t [->|Hin]%elem_of_cons; [done|by apply Hall].
    + intros [_ Hall]. split; [apply Hall; by left|].
      intros t Hin. apply Hall. by right.
Qed.

Lemma elem_of_combine_or (self : Keyword.CatalogKeywordIndex)
    (terms : list string) (d : Z) :
  d ∈ combine_postings (∪) self terms
  ↔ ∃ t, t ∈ terms ∧ d ∈ postings self t.
Proof.
  unfold combine_postings. destruct terms as [|first rest].
  - split; [by intros ?%not_elem_of_empty|by intros (t & ?%elem_of_nil & _)].
  - rewrite elem_of_foldl_union. split.
    + intros [Hf|(t & Hin & Hd)].
      * exists first. split; [by left|done].
      * exists t. split; [by right|done].
    + intros (t & [->|Hin]%elem_of_cons & Hd); [by left|right; eauto].
Qed.

(** X10.  The result of [search] as a set: with 'and' a docid is found when
    there is at least one term and the docid is in the posting set of every
    term; with 'or' when it is in the posting set of some term. *)
Theorem keyword_search_elem_of (self : Keyword.CatalogKeywordIndex)
    (terms : list string) :
  ∃ r_and r_or,
    Keyword.search self (Keyword.PyList terms) (Keyword.PyStr "and") = Ok r_and ∧
    Keyword.search self (Keyword.PyList terms) (Keyword.PyStr "or") = Ok r_or ∧
    (∀ d, d ∈ r_and ↔ terms ≠ [] ∧ ∀ t, t ∈ terms → d ∈ postings self t) ∧
    (∀ d, d ∈ r_or ↔ ∃ t, t ∈ terms ∧ d ∈ postings self t) ∧
    r_and ⊆ r_or.
Proof.
  destruct (search_PyList self terms) as [-> ->].
  eexists _, _. split; [done|]. split; [done|].
  split; [apply elem_of_combine_and|]. split; [apply elem_of_combine_or|].
  intros d [Hne Hall]%elem_of_combine_and. apply elem_of_combine_or.
  destruct terms as [|t terms]; [done|].
  exists t. split; [by left|]. apply Hall. by left.
Qed.

(** X11.  The order of the terms and their repetition do not matter to
    [search]: two term sequences with the same terms give the same result,
    with 'and' as with 'or'. *)
Theorem keyword_search_same_terms (self : Keyword.CatalogKeywordIndex)
    (terms1 terms2 : list string) :
  (∀ t, t ∈ terms1 ↔ t ∈ terms2) →
  Keyword.search self (Keyword.PyList terms1) (Keyword.PyStr "and")
    = Keyword.search self (Keyword.PyList terms2) (Keyword.PyStr "and") ∧
  Keyword.search self (Keyword.PyList terms1) (Keyword.PyStr "or")
    = Keyword.search self (Keyword.PyList terms2) (Keyword.PyStr "or").
Proof.
  intros Hsame.
  destruct (search_PyList self terms1) as [-> ->].
  destruct (search_PyList self terms2) as [-> ->].
  split; f_equal; apply set_eq; intros d.
  - rewrite !elem_of_combine_and.
    assert (terms1 ≠ [] ↔ terms2 ≠ []) as ->.
    { destruct terms1 as [|t1 ?], terms2 as [|t2 ?]; try done.
      - assert (Hin : t2 ∈ @nil string) by (apply Hsame; by left).
        by apply elem_of_nil in Hin.
      - assert (Hin : t1 ∈ @nil string) by (apply Hsame; by left).
        by apply elem_of_nil in Hin. }
    split; intros [Hne Hall]; (split; [done|]); intros t Ht;
      apply Hall; by apply Hsame.
  - rewrite !elem_of_combine_or.
    split; intros (t & Ht & Hd); exists t; (split; [by apply Hsame|done]).
Qed.

Lemma keyword_search_same_terms_witness :
  Keyword.search red_big_index (Keyword.PyList ["red"; "big"]) (Keyword.PyStr "and")
    = Keyword.search red_big_index (Keyword.PyList ["big"; "red"; "big"])
        (Keyword.PyStr "and").
Proof.
  apply (keyword_search_same_terms red_big_index ["red"; "big"]
           ["big"; "red"; "big"]).
  intros t. rewrite !elem_of_cons, !elem_of_nil. tauto.
Defined.

Lemma postings_insert_step (idx : gmap string (gset Z)) (docid : Z)
    (word t : string) :
  default ∅
    ((let idx' := if decide (is_Some (idx !! word)) then idx
                  else <[word := ∅]> idx in
      <[word := default ∅ (idx' !! word) ∪ {[docid]}]> idx') !! t)
  = default ∅ (idx !! t) ∪ (if decide (t = word) then {[docid]} else ∅).
Proof.
  cbv zeta. destruct (decide (t = word)) as [->|Hne].
  - rewrite lookup_insert_eq. simpl.
    destruct (decide (is_Some (idx !! word))) as [_|Hnone]; [done|].
    rewrite lookup_insert_eq.
    destruct (idx !! word) eqn:Hw; [by destruct Hnone|done].
  - rewrite lookup_insert_ne by done.
    destruct (decide (is_Some (idx !! word))).
    + by rewrite union_empty_r_L.
    + rewrite lookup_insert_ne by done. by rewrite union_empty_r_L.
Qed.

Lemma postings_insert_forward (self : Keyword.CatalogKeywordIndex)
    (docid : Z) (words : list string) :
  Keyword.int32 docid = true →
  ∃ self', Keyword._insert_forward docid words self = (Ok tt, self') ∧
    ∀ t, postings self' t
         = postings self t ∪ (if decide (t ∈ words) then {[docid]} else ∅).
Proof.
  intros Hrange. revert self.
  induction words as [|word words IH]; intros self.
  - exists self. split; [done|]. intros t.
    destruct (decide (t ∈ [])) as [Hin|_]; [by apply elem_of_nil in Hin|].
    by rewrite union_empty_r_L.
  - unfold Keyword._insert_forward. cbn [for_each].
    unfold mbind at 1, M_bind at 1. unfold Keyword.insert_word at 1.
    rewrite Hrange.
    match goal with
    | |- context [for_each words _ ?s] =>
        destruct (IH s) as (self' & Hrun & Hpost)
    end.
    unfold Keyword._insert_forward in Hrun. rewrite Hrun.
    exists self'. split; [done|]. intros t. rewrite Hpost.
    unfold postings at 1. cbn [Keyword._fwd_index].
    rewrite postings_insert_step. fold (postings self t).
    rewrite <-(assoc_L (∪)). f_equal.
    destruct (decide (t = word)) as [Heq|Hne], (decide (t ∈ words)) as [Hin|Hnin],
      (decide (t ∈ word :: words)) as [Hc|Hc];
      rewrite ?union_empty_l_L, ?union_empty_r_L, ?union_idemp_L; try done.
    + destruct Hc. by right.
    + destruct Hc. subst. by left.
    + destruct Hc. by right.
    + apply elem_of_cons in Hc as [?|?]; done.
Qed.

(** X12.  [_insert_forward(docid, words)] with a docid that is a 32-bit
    integer returns after adding the docid to the posting set of each of
    the words, creating a set where there was none; it changes no other
    posting set and removes nothing.  With any other docid and at least
    one word it raises [TypeError] at the first word, and has by then
    created an empty posting set for that word if it had none. *)
Theorem insert_forward_postings (self : Keyword.CatalogKeywordIndex)
    (docid : Z) (words : list string) :
  (Keyword.int32 docid = true →
   ∃ self', Keyword._insert_forward docid words self = (Ok tt, self') ∧
     ∀ t, postings self' t
          = postings self t ∪ (if decide (t ∈ words) then {[docid]} else ∅)) ∧
  (Keyword.int32 docid = false →
   match words with
   | [] => Keyword._insert_forward docid words self = (Ok tt, self)
   | word :: _ =>
       Keyword._insert_forward docid words self
         = (Raise TypeError,
            {| Keyword._fwd_index :=
                 if decide (is_Some (Keyword._fwd_index self !! word))
                 then Keyword._fwd_index self
                 else <[word := ∅]> (Keyword._fwd_index self) |})
   end).
Proof.
  split; [apply postings_insert_forward|].
  intros Hrange. destruct words as [|word rest]; [done|].
  unfold Keyword._insert_forward. cbn [for_each].
  unfold mbind, M_bind, Keyword.insert_word. by rewrite Hrange.
Qed.

Lemma insert_forward_postings_witness :
  (∃ self', Keyword._insert_forward 7 ["red"; "old"] red_big_index
              = (Ok tt, self') ∧
     ∀ t, postings self' t
          = postings red_big_index t
            ∪ (if decide (t ∈ ["red"; "old"]) then {[7]} else ∅)) ∧
  Keyword._insert_forward (2 ^ 31) ["new"; "red"] red_big_index
    = (Raise TypeError,
       {| Keyword._fwd_index :=
            if decide (is_Some (Keyword._fwd_index red_big_index !! "new"))
            then Keyword._fwd_index red_big_index
            else <[ "new" := ∅ ]> (Keyword._fwd_index red_big_index) |}).
Proof.
  split.
  - apply (insert_forward_postings red_big_index 7 ["red"; "old"]). reflexivity.
  - destruct (insert_forward_postings red_big_index (2 ^ 31) ["new"; "red"])
      as [_ Hout].
    exact (Hout eq_refl).
Defined.

(** A docid of 2**31 is refused, and the word that was new keeps the empty
    posting set made for it. *)
Example insert_forward_out_of_range :
  (Keyword._insert_forward (2 ^ 31) ["new"; "red"] red_big_index).1
    = Raise TypeError ∧
  Keyword._fwd_index
    (Keyword._insert_forward (2 ^ 31) ["new"; "red"] red_big_index).2 !! "new"
    = Some ∅ ∧
  postings (Keyword._insert_forward (2 ^ 31) ["new"; "red"] red_big_index).2 "red"
    = postings red_big_index "red".
Proof. repeat split; by vm_compute. Qed.

(** X13.  A document with a 32-bit docid inserted under some words is found
    by every 'and' query made of one or more of these words. *)
Theorem insert_forward_then_search (self : Keyword.CatalogKeywordIndex)
    (docid : Z) (words terms : list string) :
  Keyword.int32 docid = true →
  terms ≠ [] → (∀ t, t ∈ terms → t ∈ words) →
  ∃ self' r,
    Keyword._insert_forward docid words self = (Ok tt, self') ∧
    Keyword.search self' (Keyword.PyList terms) (Keyword.PyStr "and") = Ok r ∧
    docid ∈ r.
Proof.
  intros Hrange Hne Hsub.
  destruct (postings_insert_forward self docid words Hrange)
    as (self' & Hrun & Hpost).
  destruct (search_PyList self' terms) as [Hsearch _].
  exists self', (combine_postings (∩) self' terms).
  split; [done|]. split; [done|].
  apply elem_of_combine_and. split; [done|].
  intros t Ht. rewrite Hpost.
  rewrite decide_True by by apply Hsub.
  apply elem_of_union. right. by apply elem_of_singleton.
Qed.

Lemma insert_forward_then_search_witness :
  ∃ self' r,
    Keyword._insert_forward 7 ["red"; "big"; "old"] red_big_index
      = (Ok tt, self') ∧
    Keyword.search self' (Keyword.PyList ["old"; "red"]) (Keyword.PyStr "and")
      = Ok r ∧
    7 ∈ r.
Proof.
  apply (insert_forward_then_search red_big_index 7 ["red"; "big"; "old"]
           ["old"; "red"]).
  - reflexivity.
  - discriminate.
  - intros t. rewrite !elem_of_cons, !elem_of_nil. tauto.
Defined.

(** X14.  [apply] on a dict without a 'query' key raises [KeyError], and by
    then the 'operator' key is already gone from the caller's dict. *)
Theorem keyword_apply_missing_query (self : Keyword.CatalogKeywordIndex)
    (d : gmap string Keyword.pyquery) :
  d !! "query" = None →
  Keyword.apply (self, Keyword.Dict d)
    = (Raise KeyError, (self, Keyword.Dict (delete "operator" d))).
Proof.
  intros Hq. unfold Keyword.apply.
  destruct (d !! "operator") as [op|] eqn:Hop.
  - by rewrite lookup_delete_ne, Hq.
  - by rewrite Hq, delete_id.
Qed.

Lemma keyword_apply_missing_query_witness :
  Keyword.apply (red_big_index,
                 Keyword.Dict {[ "operator" := Keyword.PyStr "or" ]})
    = (Raise KeyError,
       (red_big_index,
        Keyword.Dict (delete "operator" {[ "operator" := Keyword.PyStr "or" ]}))).
Proof.
  apply (keyword_apply_missing_query red_big_index
           {[ "operator" := Keyword.PyStr "or" ]}).
  reflexivity.
Defined.

(** X15.  What [apply] answers: for a dict, the search for its 'query' entry
    with its 'operator' entry, or with 'and' when it has none; a raw query
    is searched with 'and' and is not changed. *)
Theorem keyword_apply_result (self : Keyword.CatalogKeywordIndex)
    (d : gmap string Keyword.pyquery) (q : Keyword.pyquery) :
  d !! "query" = Some q →
  (Keyword.apply (self, Keyword.Dict d)).1
    = Keyword.search self q (default (Keyword.PyStr "and") (d !! "operator")) ∧
  Keyword.apply (self, Keyword.Raw q)
    = (Keyword.search self q (Keyword.PyStr "and"), (self, Keyword.Raw q)).
Proof.
  intros Hq. split; [|done]. unfold Keyword.apply.
  destruct (d !! "operator") as [op|] eqn:Hop.
  - by rewrite lookup_delete_ne, Hq.
  - by rewrite Hq.
Qed.

Lemma keyword_apply_result_witness :
  (Keyword.apply (red_big_index,
                  Keyword.Dict {[ "query" := Keyword.PyList ["red"; "big"] ]})).1
    = Keyword.search red_big_index (Keyword.PyList ["red"; "big"])
        (default (Keyword.PyStr "and")
           (({[ "query" := Keyword.PyList ["red"; "big"] ]}
               : gmap string Keyword.pyquery) !! "operator")).
Proof.
  apply (keyword_apply_result red_big_index
           {[ "query" := Keyword.PyList ["red"; "big"] ]}
           (Keyword.PyList ["red"; "big"])).
  reflexivity.
Defined.

(** ** Catalog: the mutators *)

Section for_values.
Context {I : Type} (body : M I unit).
Implicit Types self : Cat.Catalog (I := I).

Lemma for_values_names self : (Cat.for_values body self).2.*1 = self.*1.
Proof.
  induction self as [|[name index] rest IH]; [done|]. simpl.
  destruct (body index) as [[[]|e] index']; [|done].
  destruct (Cat.for_values body rest) as [r rest']. simpl in *. by f_equal.
Qed.

Lemma for_values_Ok self :
  (∀ item, item ∈ self → (body item.2).1 = Ok tt) →
  Cat.for_values body self = (Ok tt, all_updated body self).
Proof.
  induction self as [|[name index] rest IH]; intros Hok; [done|]. simpl.
  pose proof (Hok (name, index) ltac:(by left)) as Hhd. simpl in Hhd.
  destruct (body index) as [[[]|e] index']; [|done].
  rewrite IH; [done|]. intros item Hitem. apply Hok. by right.
Qed.

Lemma for_values_Raise before name index after e index' :
  (∀ item, item ∈ before → (body item.2).1 = Ok tt) →
  body index = (Raise e, index') →
  Cat.for_values body (before ++ (name, index) :: after)
    = (Raise e, all_updated body before ++ (name, index') :: after).
Proof.
  intros Hok Hraise.
  induction before as [|[n i] before IH]; simpl.
  - by rewrite Hraise.
  - pose proof (Hok (n, i) ltac:(by left)) as Hhd. simpl in Hhd.
    destruct (body i) as [[[]|e'] i']; [|done].
    rewrite IH; [done|]. intros item Hitem. apply Hok. by right.
Qed.
End for_values.

Lemma set_index_names {I : Type} (self : Cat.Catalog (I := I)) (name : string)
    (index : I) :
  is_Some (Cat.get self name) → (Cat.set_index name index self).*1 = self.*1.
Proof.
  induction self as [|[n i] rest IH]; simpl; [by intros [? ?]|].
  destruct (decide (n = name)); [done|]. intros H. simpl. f_equal. by apply IH.
Qed.

Lemma get_set_index {I : Type} (self : Cat.Catalog (I := I)) (name other : string)
    (index : I) :
  Cat.get (Cat.set_index name index self) other
    = if decide (name = other) then Some index else Cat.get self other.
Proof.
  induction self as [|[n i] rest IH]; simpl.
  - destruct (decide (name = other)); done.
  - destruct (decide (n = name)) as [->|Hn]; simpl.
    + destruct (decide (name = other)); done.
    + destruct (decide (n = other)) as [->|Ho]; [|done].
      by rewrite decide_False by done.
Qed.

(** X16.  No mutator of the catalog adds, removes, renames or reorders
    indexes, whether it returns or raises. *)
Theorem catalog_names_preserved {I Doc : Type} `{!Injection I Doc}
    (self : Cat.Catalog) (docid : Cat.pyid) (obj : Doc) (name : string)
    (items : list (Cat.pyid * Doc)) :
  (Cat.index_doc docid obj self).2.*1 = self.*1 ∧
  (Cat.unindex_doc (Doc := Doc) docid self).2.*1 = self.*1 ∧
  (Cat.updateIndex name items self).2.*1 = self.*1 ∧
  (Cat.updateIndexes items self).2.*1 = self.*1.
Proof.
  assert (Hone : ∀ d o (s : Cat.Catalog), (Cat.index_doc d o s).2.*1 = s.*1).
  { intros [n|repr] o s; [|done]. apply for_values_names. }
  split; [apply Hone|]. split; [|split].
  - destruct docid as [n|repr]; [|done]. apply for_values_names.
  - unfold Cat.updateIndex. destruct (Cat.get self name) as [index|] eqn:Hget;
      [|done].
    destruct (for_each items _ index) as [r index']. simpl.
    apply set_index_names. by rewrite Hget.
  - unfold Cat.updateIndexes. revert self.
    induction items as [|[d o] items IH]; intros self; [done|].
    cbn [for_each]. unfold mbind at 1, M_bind at 1.
    pose proof (Hone d o self) as Hd. unfold Cat.index_doc in Hd.
    destruct ((n ← Cat.assertint d; Cat.for_values (inj_index_doc n o)) self)
      as [[[]|e] self'] eqn:Hstep; simpl in Hd; [|done].
    by rewrite IH.
Qed.

(** X17.  [Catalog.index_doc] with an integer id calls every index, in the
    order of [values()]; when all the calls return, each index is left as
    its own [index_doc] left it. *)
Theorem catalog_index_doc_reaches_all {I Doc : Type} `{!Injection I Doc}
    (self : Cat.Catalog) (n : Z) (obj : Doc) :
  (∀ item, item ∈ self → (inj_index_doc n obj item.2).1 = Ok tt) →
  Cat.index_doc (Cat.PyInt n) obj self
    = (Ok tt, all_updated (inj_index_doc n obj) self).
Proof. apply for_values_Ok. Qed.

Lemma catalog_index_doc_reaches_all_witness :
  Cat.index_doc (Cat.PyInt 1) (doc_f (Plain 20)) two_field_catalog
    = (Ok tt, all_updated (inj_index_doc 1 (doc_f (Plain 20))) two_field_catalog).
Proof.
  apply (catalog_index_doc_reaches_all two_field_catalog 1 (doc_f (Plain 20))).
  intros item Hitem.
  apply elem_of_cons in Hitem as [->|Hitem];
    [|apply list_elem_of_singleton in Hitem as ->]; reflexivity.
Defined.

(** X18.  There is no rollback: when the call to one index raises, the
    indexes in front of it stay updated, the raising index stays as the
    exception left it, and the indexes behind it are not called. *)
Theorem catalog_index_doc_no_rollback {I Doc : Type} `{!Injection I Doc}
    (before after : Cat.Catalog) (name : string) (index index' : I)
    (n : Z) (obj : Doc) (e : error) :
  (∀ item, item ∈ before → (inj_index_doc n obj item.2).1 = Ok tt) →
  inj_index_doc n obj index = (Raise e, index') →
  Cat.index_doc (Cat.PyInt n) obj (before ++ (name, index) :: after)
    = (Raise e,
       all_updated (inj_index_doc n obj) before ++ (name, index') :: after).
Proof. apply for_values_Raise. Qed.

Lemma catalog_index_doc_no_rollback_witness :
  Cat.index_doc (Cat.PyInt 1) doc_fg two_field_catalog
    = (Raise (ValueError PersistentValue),
       all_updated (inj_index_doc 1 doc_fg) [("f", empty_index)]
         ++ [("g", Field.new_field_index (AttrName "g"))]).
Proof.
  apply (catalog_index_doc_no_rollback [("f", empty_index)] []
           "g" (Field.new_field_index (AttrName "g"))
           (Field.new_field_index (AttrName "g")) 1 doc_fg
           (ValueError PersistentValue)).
  - intros item Hitem. apply list_elem_of_singleton in Hitem as ->. reflexivity.
  - reflexivity.
Defined.

(** The first index of the witness has been changed by the failed call. *)
Example catalog_partial_update :
  Cat.get (Cat.index_doc (Cat.PyInt 1) doc_fg two_field_catalog).2 "f"
    = Some one_index ∧
  one_index ≠ empty_index.
Proof. split; [reflexivity|]. intros [=]. Qed.

(** X19.  Bulk updates compose: [updateIndexes] of one item is
    [index_doc], and of a concatenation it is the update with the first
    part followed, unless that raised, by the update with the second. *)
Theorem updateIndexes_compose {I Doc : Type} `{!Injection I Doc}
    (self : Cat.Catalog) (docid : Cat.pyid) (obj : Doc)
    (items1 items2 : list (Cat.pyid * Doc)) :
  Cat.updateIndexes [(docid, obj)] self = Cat.index_doc docid obj self ∧
  Cat.updateIndexes (items1 ++ items2) self
    = match Cat.updateIndexes items1 self with
      | (Ok _, self') => Cat.updateIndexes items2 self'
      | (Raise e, self') => (Raise e, self')
      end.
Proof.
  split; [|apply for_each_app].
  unfold Cat.updateIndexes, Cat.index_doc. cbn [for_each].
  unfold mbind at 1, M_bind at 1.
  by destruct ((n ← Cat.assertint docid; Cat.for_values (inj_index_doc n obj)) self)
    as [[[]|e] self'].
Qed.

(** X20.  [updateIndex] works on the named index only: a name that is not
    registered raises [KeyError] before any item is looked at, and for a
    registered name every other index is what it was, while the named one is
    what the loop over the items made of it. *)
Theorem updateIndex_named_only {I Doc : Type} `{!Injection I Doc}
    (self : Cat.Catalog) (name : string) (items : list (Cat.pyid * Doc)) :
  (Cat.get self name = None →
   Cat.updateIndex name items self = (Raise KeyError, self)) ∧
  (∀ other, other ≠ name →
     Cat.get (Cat.updateIndex name items self).2 other = Cat.get self other) ∧
  (∀ index, Cat.get self name = Some index →
     Cat.get (Cat.updateIndex name items self).2 name
       = Some (for_each items
                 (λ '(docid, obj), n ← Cat.assertint docid; inj_index_doc n obj)
                 index).2).
Proof.
  unfold Cat.updateIndex. split; [by intros ->|]. split.
  - intros other Hne. destruct (Cat.get self name) as [index|]; [|done].
    destruct (for_each items _ index) as [r index']. simpl.
    rewrite get_set_index. by rewrite decide_False by done.
  - intros index ->. destruct (for_each items _ index) as [r index']. simpl.
    rewrite get_set_index. by rewrite decide_True.
Qed.

Lemma updateIndex_named_only_witness :
  Cat.updateIndex "h" mixed_items two_field_catalog
    = (Raise KeyError, two_field_catalog) ∧
  Cat.get (Cat.updateIndex "f" mixed_items two_field_catalog).2 "g"
    = Cat.get two_field_catalog "g" ∧
  Cat.get (Cat.updateIndex "f" mixed_items two_field_catalog).2 "f"
    = Some one_index.
Proof.
  destruct (updateIndex_named_only two_field_catalog "h" mixed_items)
    as (Hmissing & _ & _).
  destruct (updateIndex_named_only two_field_catalog "f" mixed_items)
    as (_ & Hother & Hnamed).
  split; [by apply Hmissing|]. split; [by apply Hother|].
  by rewrite (Hnamed empty_index).
Defined.

(** ** Catalog: the loop of searchResults *)

Section search_loop.
Context {I Q : Type} `{!IndexSearch I Q}.
Implicit Types (self : Cat.Catalog (I := I)) (query : list (string * nat))
  (heap : gmap nat Q).

Lemma apply_indexes_all_skipped self query acc heap :
  each_in_turn (λ r, r = ItemSkipped) self heap query →
  Cat.apply_indexes self query acc heap
    = (Cat.Collected acc, heap_after self heap query).
Proof.
  revert acc heap. induction query as [|item query IH]; intros acc heap; [done|].
  cbn [each_in_turn heap_after]. intros [Hitem Hrest].
  rewrite apply_indexes_cons.
  destruct (apply_item self heap item) as [r heap']. simpl in *. subst r.
  by apply IH.
Qed.

Lemma apply_indexes_stops self before item after acc heap :
  each_in_turn goes_on self heap before →
  ((apply_item self (heap_after self heap before) item).1 = ItemEmpty →
   Cat.apply_indexes self (before ++ item :: after) acc heap
     = (Cat.ShortCircuit ∅,
        (apply_item self (heap_after self heap before) item).2)) ∧
  (∀ e, (apply_item self (heap_after self heap before) item).1 = ItemFails e →
   Cat.apply_indexes self (before ++ item :: after) acc heap
     = (Cat.Failed e,
        (apply_item self (heap_after self heap before) item).2)).
Proof.
  revert acc heap. induction before as [|b before IH]; intros acc heap.
  - intros _. cbn [app heap_after]. rewrite apply_indexes_cons.
    destruct (apply_item self heap item) as [r heap']. simpl.
    split; [by intros ->|by intros e ->].
  - cbn [app each_in_turn heap_after]. intros [Hb Hbefore].
    rewrite apply_indexes_cons.
    destruct (apply_item self heap b) as [r heap']. simpl in *.
    destruct Hb as [->|[s ->]]; by apply IH.
Qed.

Lemma apply_indexes_skip self before item after acc heap :
  apply_item self (heap_after self heap before) item
    = (ItemSkipped, heap_after self heap before) →
  Cat.apply_indexes self (before ++ item :: after) acc heap
    = Cat.apply_indexes self (before ++ after) acc heap.
Proof.
  revert acc heap. induction before as [|b before IH]; intros acc heap;
    cbn [app heap_after].
  - intros Hskip. by rewrite apply_indexes_cons, Hskip.
  - intros Hskip. rewrite !apply_indexes_cons.
    destruct (apply_item self heap b) as [[e| | |s] heap']; simpl in *;
      [done| |done|]; by apply IH.
Qed.
End search_loop.

(** X21.  When no sub-query is applicable (there is none, or every index
    returns [None]), [searchResults] returns [(0, ())], whatever
    [sort_index], [reverse] and [limit] are: no sort index is looked up. *)
Theorem searchResults_nothing_applicable {I Q : Type} `{!IndexSearch I Q}
    (self : Cat.Catalog) (sort_index : option string) (reverse : bool)
    (limit : option Z) (query : list (string * nat)) (heap : gmap nat Q) :
  each_in_turn (λ r, r = ItemSkipped) self heap query →
  Cat.searchResults self sort_index reverse limit query heap
    = (Ok (0, Cat.EmptyTuple), heap_after self heap query).
Proof.
  intros Hall. unfold Cat.searchResults.
  by rewrite apply_indexes_all_skipped.
Qed.

Lemma searchResults_nothing_applicable_witness :
  Cat.searchResults keyword_catalog (Some "nope") true (Some 0) [] raw_heap
    = (Ok (0, Cat.EmptyTuple), heap_after keyword_catalog raw_heap []) ∧
  Cat.searchResults switched_catalog (Some "nope") true (Some 0)
    [("off", 1%nat)] raw_heap
    = (Ok (0, Cat.EmptyTuple),
       heap_after switched_catalog raw_heap [("off", 1%nat)]).
Proof.
  split.
  - apply (searchResults_nothing_applicable keyword_catalog (Some "nope") true
             (Some 0) [] raw_heap).
    exact I.
  - apply (searchResults_nothing_applicable switched_catalog (Some "nope") true
             (Some 0) [("off", 1%nat)] raw_heap).
    split; [reflexivity|exact I].
Defined.

(** X22.  The loop over the sub-queries stops at the first one that comes
    back empty or fails: for an empty result [searchResults] returns
    [(0, empty set)], for a failure it raises, and in both cases the
    sub-queries behind it are not evaluated, their objects stay as they
    are, and [sort_index], [reverse] and [limit] play no part. *)
Theorem searchResults_stops_at_first {I Q : Type} `{!IndexSearch I Q}
    (self : Cat.Catalog) (sort_index : option string) (reverse : bool)
    (limit : option Z) (before after : list (string * nat))
    (item : string * nat) (heap : gmap nat Q) :
  each_in_turn goes_on self heap before →
  ((apply_item self (heap_after self heap before) item).1 = ItemEmpty →
   Cat.searchResults self sort_index reverse limit (before ++ item :: after) heap
     = (Ok (0, Cat.ResultSet ∅),
        (apply_item self (heap_after self heap before) item).2)) ∧
  (∀ e, (apply_item self (heap_after self heap before) item).1 = ItemFails e →
   Cat.searchResults self sort_index reverse limit (before ++ item :: after) heap
     = (Raise e, (apply_item self (heap_after self heap before) item).2)).
Proof.
  intros Hbefore. unfold Cat.searchResults.
  destruct (apply_indexes_stops self before item after [] heap Hbefore)
    as [Hempty Hfail].
  split.
  - intros Hitem. by rewrite Hempty.
  - intros e Hitem. by rewrite (Hfail e).
Qed.

Lemma searchResults_stops_at_first_witness :
  Cat.searchResults keyword_catalog (Some "nope") false (Some 0)
    ([("B", 1%nat)] ++ ("A", 2%nat) :: [("nope", 0%nat)]) raw_heap
    = (Ok (0, Cat.ResultSet ∅),
       (apply_item keyword_catalog
          (heap_after keyword_catalog raw_heap [("B", 1%nat)]) ("A", 2%nat)).2) ∧
  Cat.searchResults keyword_catalog None false None
    ([("B", 1%nat)] ++ ("A", 3%nat) :: [("A", 2%nat)]) xor_heap
    = (Raise KeyError,
       (apply_item keyword_catalog
          (heap_after keyword_catalog xor_heap [("B", 1%nat)]) ("A", 3%nat)).2).
Proof.
  split.
  - apply (searchResults_stops_at_first keyword_catalog (Some "nope") false
             (Some 0) [("B", 1%nat)] [("nope", 0%nat)] ("A", 2%nat) raw_heap).
    + split; [|exact I]. right. eexists. by vm_compute.
    + by vm_compute.
  - apply (searchResults_stops_at_first keyword_catalog None false None
             [("B", 1%nat)] [("A", 2%nat)] ("A", 3%nat) xor_heap).
    + split; [|exact I]. right. eexists. by vm_compute.
    + by vm_compute.
Defined.

(** The failing sub-query of the witness had its 'operator' popped before
    [search] raised; the object behind it was not touched. *)
Example searchResults_stops_heap :
  (Cat.searchResults keyword_catalog None false None
     ([("B", 1%nat)] ++ ("A", 3%nat) :: [("A", 2%nat)]) xor_heap).2
    = <[ 3%nat := Keyword.Dict {[ "query" := Keyword.PyStr "a" ]} ]> xor_heap.
Proof. by vm_compute. Qed.

(** X23.  A sub-query whose index returns [None] and leaves the sub-query
    object as it was is skipped: the outcome of [searchResults] is the one
    of the query without it. *)
Theorem searchResults_skips_None {I Q : Type} `{!IndexSearch I Q}
    (self : Cat.Catalog) (sort_index : option string) (reverse : bool)
    (limit : option Z) (before after : list (string * nat))
    (item : string * nat) (heap : gmap nat Q) :
  apply_item self (heap_after self heap before) item
    = (ItemSkipped, heap_after self heap before) →
  Cat.searchResults self sort_index reverse limit (before ++ item :: after) heap
    = Cat.searchResults self sort_index reverse limit (before ++ after) heap.
Proof.
  intros Hskip. unfold Cat.searchResults. by rewrite apply_indexes_skip.
Qed.

Lemma searchResults_skips_None_witness :
  Cat.searchResults switched_catalog None false None
    ([("A", 0%nat)] ++ ("off", 1%nat) :: []) raw_heap
    = Cat.searchResults switched_catalog None false None
        ([("A", 0%nat)] ++ []) raw_heap.
Proof.
  apply (searchResults_skips_None switched_catalog None false None
           [("A", 0%nat)] [] ("off", 1%nat) raw_heap).
  by vm_compute.
Defined.
